(** * Quaternion.js: a shallow embedding and its verified properties

    The development follows [src/Quaternion.js] function by function.

    JavaScript numbers are IEEE-754 doubles.  The code is embedded once,
    generically over a class [Number] of the arithmetic it uses, and the class
    is instantiated twice:

    - at Rocq's primitive binary64 floats ([float]), which are the doubles
      the program really computes with; every definition evaluates there;
    - at the real numbers ([R]), the exact arithmetic the algebraic
      properties (unit length, inverse, composition of rotations) are about.

    [Math.sin], [Math.cos], [Math.acos], [Math.PI] and the remainder [%] have
    no primitive-float counterpart in Rocq; they form a second class,
    [MathLib], instantiated at [R] only. *)

From Stdlib Require Import Floats Reals Lra Psatz List ZArith String Bool.
Import ListNotations.

Set Warnings "-register-all".

(** ** Numbers *)

Declare Scope js_scope.
Delimit Scope js_scope with js.

Class Number (T : Type) : Type := {
  n0 : T;                          (* the literals 0 and 0.0 *)
  n1 : T;                          (* 1 and 1.0 *)
  n2 : T;                          (* 2 *)
  n180 : T;                        (* 180 *)
  n0_5 : T;                        (* 0.5 *)
  n0_001 : T;                      (* 0.001 *)
  js_add : T -> T -> T;
  js_sub : T -> T -> T;
  js_mul : T -> T -> T;
  js_div : T -> T -> T;
  js_neg : T -> T;                 (* unary minus *)
  Math_sqrt : T -> T;
  Math_abs : T -> T;
  js_lt : T -> T -> bool;          (* a < b *)
  js_le : T -> T -> bool;          (* a <= b *)
  js_eq : T -> T -> bool;          (* a === b on two numbers *)
  ToBoolean : T -> bool            (* truthiness of a number *)
}.

Class MathLib (T : Type) `{Number T} : Type := {
  Math_PI : T;
  Math_sin : T -> T;
  Math_cos : T -> T;
  Math_acos : T -> T;
  js_mod : T -> T -> T             (* the remainder operator % *)
}.

Infix "+" := js_add : js_scope.
Infix "-" := js_sub : js_scope.
Infix "*" := js_mul : js_scope.
Infix "/" := js_div : js_scope.
Notation "- a" := (js_neg a) : js_scope.
Infix "%%" := js_mod (at level 40, left associativity) : js_scope.
Notation "a < b" := (js_lt a b) : js_scope.
Notation "a <= b" := (js_le a b) : js_scope.
Notation "a > b" := (js_lt b a) : js_scope.
Notation "a >= b" := (js_le b a) : js_scope.
Notation "a === b" := (js_eq a b) (at level 70, no associativity) : js_scope.
Notation "a !== b" := (negb (js_eq a b)) (at level 70, no associativity) : js_scope.

(** *** Doubles *)

Definition float_truthy (a : float) : bool :=
  negb (PrimFloat.eqb a 0%float || negb (PrimFloat.eqb a a)).

#[export] Instance Number_float : Number float := {|
  n0 := 0%float;
  n1 := 1%float;
  n2 := 2%float;
  n180 := 180%float;
  n0_5 := 0.5%float;
  n0_001 := 0x1.0624dd2f1a9fcp-10%float;   (* the double nearest to 0.001 *)
  js_add := PrimFloat.add;
  js_sub := PrimFloat.sub;
  js_mul := PrimFloat.mul;
  js_div := PrimFloat.div;
  js_neg := PrimFloat.opp;
  Math_sqrt := PrimFloat.sqrt;
  Math_abs := PrimFloat.abs;
  js_lt := PrimFloat.ltb;
  js_le := PrimFloat.leb;
  js_eq := PrimFloat.eqb;
  ToBoolean := float_truthy
|}.

(** *** Exact real arithmetic *)

Definition Rltb (a b : R) : bool := if Rlt_dec a b then true else false.
Definition Rleb (a b : R) : bool := if Rle_dec a b then true else false.
Definition Reqb (a b : R) : bool := if Req_dec_T a b then true else false.

#[export] Instance Number_R : Number R := {|
  n0 := 0%R;
  n1 := 1%R;
  n2 := 2%R;
  n180 := 180%R;
  n0_5 := (1 / 2)%R;
  n0_001 := (1 / 1000)%R;
  js_add := Rplus;
  js_sub := Rminus;
  js_mul := Rmult;
  js_div := Rdiv;
  js_neg := Ropp;
  Math_sqrt := sqrt;
  Math_abs := Rabs;
  js_lt := Rltb;
  js_le := Rleb;
  js_eq := Reqb;
  ToBoolean := fun a => negb (Reqb a 0%R)
|}.

(** [a % b] keeps the sign of the dividend: [a - b * trunc (a / b)]. *)
Definition Rtrunc (a : R) : Z := if Rle_dec 0 a then Zfloor a else Zceil a.
Definition Rmod (a b : R) : R := (a - b * IZR (Rtrunc (a / b)))%R.

#[export] Instance MathLib_R : MathLib R := {|
  Math_PI := PI;
  Math_sin := sin;
  Math_cos := cos;
  Math_acos := acos;
  js_mod := Rmod
|}.

(** ** The collaborators [Vec3] and [Mat33] *)

Module Vec3.

Record t (T : Type) : Type := mk { x : T; y : T; z : T }.

Arguments mk {T} _ _ _.
Arguments x {T} _.
Arguments y {T} _.
Arguments z {T} _.

Section Ops.
Context {T : Type} `{Number T}.
Local Open Scope js_scope.

(** Modelled from the spec: [Vec3.js] is not among the sources.  A vector
    built from an array-like of at least three numbers takes its elements
    0, 1 and 2.  The spec is silent on shorter arrays; a missing element is
    read as 0 here, and no property below depends on that choice. *)
Definition of_array (a : list T) : t T :=
  mk (nth 0 a n0) (nth 1 a n0) (nth 2 a n0).

(** Modelled from the spec: [Vec3.prototype.normalize] is not among the
    sources.  It returns a unit-length copy, or a zero vector if the input
    has zero length. *)
Definition normalize (v : t T) : t T :=
  let mag := Math_sqrt (x v * x v + y v * y v + z v * z v) in
  if mag !== n0 then mk (x v / mag) (y v / mag) (z v / mag)
  else mk n0 n0 n0.
End Ops.

End Vec3.

Module Mat33.

(** Modelled from the spec: [Mat33.js] is not among the sources.  A matrix
    is constructed from a flat sequence of nine numbers, which is all the
    quaternion code does with it. *)
Record t (T : Type) : Type := mk { data : list T }.

Arguments mk {T} _.
Arguments data {T} _.

End Mat33.

(** ** The quaternion object *)

Record Quat (A : Type) : Type := mkQuat { w : A; x : A; y : A; z : A }.

Arguments mkQuat {A} _ _ _ _.
Arguments w {A} _.
Arguments x {A} _.
Arguments y {A} _.
Arguments z {A} _.

(** ** JavaScript values reaching the constructor *)

Inductive key : Type :=
| KName (s : string)               (* argument.w, argument.x, ... *)
| KIndex (i : nat).                (* argument[0], argument[1], ... *)

Definition key_eqb (k1 k2 : key) : bool :=
  match k1, k2 with
  | KName s1, KName s2 => String.eqb s1 s2
  | KIndex i1, KIndex i2 => Nat.eqb i1 i2
  | _, _ => false
  end.

(** The values that can reach the constructor: [undefined], [null],
    booleans, numbers, strings, arrays, and objects with named and indexed
    properties.  Functions, symbols and big integers are not modelled; like
    a boolean they have none of the properties the constructor reads. *)
Inductive value (T : Type) : Type :=
| VUndefined
| VNull
| VBoolean (b : bool)
| VNumber (n : T)
| VString (s : string)
| VArray (elems : list (value T))
| VObject (props : list (key * value T)).

Arguments VUndefined {T}.
Arguments VNull {T}.
Arguments VBoolean {T} _.
Arguments VNumber {T} _.
Arguments VString {T} _.
Arguments VArray {T} _.
Arguments VObject {T} _.

Fixpoint lookup {T : Type} (k : key) (props : list (key * value T)) : value T :=
  match props with
  | [] => VUndefined
  | (k', v) :: rest => if key_eqb k k' then v else lookup k rest
  end.

(** Reading one of the properties [w], [x], [y], [z], [0], [1], [2], [3].
    [None] is the [TypeError] thrown when a property of [undefined] or of
    [null] is read; a property a value does not have reads as [undefined];
    an index into a string reads the one-character string at that place. *)
Definition get {T : Type} (v : value T) (k : key) : option (value T) :=
  match v with
  | VUndefined => None
  | VNull => None
  | VBoolean _ => Some VUndefined
  | VNumber _ => Some VUndefined
  | VString s =>
      match k with
      | KIndex i =>
          match String.get i s with
          | Some c => Some (VString (String c EmptyString))
          | None => Some VUndefined
          end
      | KName _ => Some VUndefined
      end
  | VArray elems =>
      match k with
      | KIndex i => Some (nth i elems VUndefined)
      | KName _ => Some VUndefined
      end
  | VObject props => Some (lookup k props)
  end.

Definition is_undefined {T : Type} (v : value T) : bool :=
  match v with VUndefined => true | _ => false end.

Section Constructor.
Context {T : Type} `{Number T}.

Definition truthy (v : value T) : bool :=
  match v with
  | VUndefined => false
  | VNull => false
  | VBoolean b => b
  | VNumber n => ToBoolean n
  | VString s => negb (String.eqb s EmptyString)
  | VArray _ => true
  | VObject _ => true
  end.

(** [a || b] *)
Definition js_or (a b : value T) : value T := if truthy a then a else b.

Definition bind {A B : Type} (o : option A) (f : A -> option B) : option B :=
  match o with Some a => f a | None => None end.

Local Notation "v <- o ;; k" := (bind o (fun v => k))
  (at level 61, o at next level, right associativity).

(** [function Quaternion()], on the list of its [arguments].  The fields of
    the new object hold whatever values were assigned to them.  The eight
    property reads of the one-argument case are made up front: a read throws
    only when [argument] itself is [undefined] or [null], and then the first
    one, [argument.w], already does. *)
Definition Quaternion (arguments : list (value T)) : option (Quat (value T)) :=
  match arguments with
  | [argument] =>
      aw <- get argument (KName "w") ;;
      a0 <- get argument (KIndex 0) ;;
      ax <- get argument (KName "x") ;;
      a1 <- get argument (KIndex 1) ;;
      ay <- get argument (KName "y") ;;
      a2 <- get argument (KIndex 2) ;;
      az <- get argument (KName "z") ;;
      a3 <- get argument (KIndex 3) ;;
      let this_w :=
        if negb (is_undefined aw) then aw
        else if negb (is_undefined a0) then a0
        else VNumber n1 in
      let this_x := js_or (js_or ax a1) (VNumber n0) in
      let this_y := js_or (js_or ay a2) (VNumber n0) in
      let this_z := js_or (js_or az a3) (VNumber n0) in
      Some (mkQuat this_w this_x this_y this_z)
  | [a0; a1; a2; a3] => Some (mkQuat a0 a1 a2 a3)
  | _ => Some (mkQuat (VNumber n1) (VNumber n0) (VNumber n0) (VNumber n0))
  end.

(** [Quaternion.prototype.toArray] *)
Definition toArray {A : Type} (this : Quat A) : list A :=
  [w this; x this; y this; z this].

End Constructor.

(** ** The quaternion operations *)

(** An operand that is either an [Array] of numbers or an object. *)
Inductive operand (T O : Type) : Type :=
| IsArray (a : list T)             (* that instanceof Array *)
| IsObject (o : O).

Arguments IsArray {T O} _.
Arguments IsObject {T O} _.

Section Operations.
Context {T : Type} `{Number T}.
Local Open Scope js_scope.

(** [new Quaternion( w, x, y, z )] at four numbers is [mkQuat w x y z], and
    [new Quaternion()] is [mkQuat 1 0 0 0]: see [Quaternion_four] and
    [Quaternion_no_argument] below. *)

(** [new Quaternion( that )] at an [Array] of numbers: the one-argument
    case of the constructor, see [Quaternion_of_array_numbers]. *)
Definition of_array (a : list T) : Quat T :=
  let or0 (e : T) := if ToBoolean e then e else n0 in
  mkQuat (nth 0 a n1) (or0 (nth 1 a n0)) (or0 (nth 2 a n0)) (or0 (nth 3 a n0)).

(** [Quaternion.identity] *)
Definition identity : Quat T := mkQuat n1 n0 n0 n0.

(** [Quaternion.prototype.mult] *)
Definition mult (this : Quat T) (that : operand T (Quat T)) : Quat T :=
  let that := match that with IsArray a => of_array a | IsObject q => q end in
  let w' := (w that * w this) - (x that * x this) - (y that * y this) - (z that * z this) in
  let x' := y this * z that - z this * y that + w this * x that + x this * w that in
  let y' := z this * x that - x this * z that + w this * y that + y this * w that in
  let z' := x this * y that - y this * x that + w this * z that + z this * w that in
  mkQuat w' x' y' z'.

(** [Quaternion.prototype.conjugate] *)
Definition conjugate (this : Quat T) : Quat T :=
  mkQuat (w this) (- x this) (- y this) (- z this).

(** [Quaternion.prototype.inverse] *)
Definition inverse (this : Quat T) : Quat T := conjugate this.

(** [Quaternion.prototype.rotate] *)
Definition rotate (this : Quat T) (that : operand T (Vec3.t T)) : Vec3.t T :=
  let that := match that with IsArray a => Vec3.of_array a | IsObject v => v end in
  let vq := mkQuat n0 (Vec3.x that) (Vec3.y that) (Vec3.z that) in
  let r := mult (mult this (IsObject vq)) (IsObject (inverse this)) in
  Vec3.mk (x r) (y r) (z r).

(** [Quaternion.prototype.matrix] *)
Definition matrix (this : Quat T) : Mat33.t T :=
  let xx := x this * x this in
  let yy := y this * y this in
  let zz := z this * z this in
  let xy := x this * y this in
  let xz := x this * z this in
  let xw := x this * w this in
  let yz := y this * z this in
  let yw := y this * w this in
  let zw := z this * w this in
  Mat33.mk [
    n1 - n2*yy - n2*zz; n2*xy + n2*zw; n2*xz - n2*yw;
    n2*xy - n2*zw; n1 - n2*xx - n2*zz; n2*yz + n2*xw;
    n2*xz + n2*yw; n2*yz - n2*xw; n1 - n2*xx - n2*yy ].

(** [Quaternion.prototype.equals]; [epsilon] is optional. *)
Definition equals (this that : Quat T) (epsilon : option T) : bool :=
  let epsilon := match epsilon with None => n0 | Some e => e end in
  ((x this === x that) || (Math_abs (x this - x that) <= epsilon)) &&
  ((y this === y that) || (Math_abs (y this - y that) <= epsilon)) &&
  ((z this === z that) || (Math_abs (z this - z that) <= epsilon)) &&
  ((w this === w that) || (Math_abs (w this - w that) <= epsilon)).

(** [Quaternion.prototype.normalize] *)
Definition normalize (this : Quat T) : Quat T :=
  let mag := Math_sqrt (
    x this * x this +
    y this * y this +
    z this * z this +
    w this * w this) in
  if mag !== n0 then
    mkQuat (w this / mag) (x this / mag) (y this / mag) (z this / mag)
  else mkQuat n1 n0 n0 n0.

Context `{!MathLib T}.

(** [Quaternion.rotationRadians] *)
Definition rotationRadians (angle : T) (axis : Vec3.t T) : Quat T :=
  let angle := if angle > n0 then angle %% (n2 * Math_PI)
               else angle %% (- n2 * Math_PI) in
  let axis := Vec3.normalize axis in
  let sina := Math_sin (angle / n2) in
  let cosa := Math_cos (angle / n2) in
  normalize (mkQuat cosa (Vec3.x axis * sina) (Vec3.y axis * sina) (Vec3.z axis * sina)).

(** [Quaternion.rotationDegrees] *)
Definition rotationDegrees (angle : T) (axis : Vec3.t T) : Quat T :=
  rotationRadians (angle * (Math_PI / n180)) axis.

(** [Quaternion.slerp] *)
Definition slerp (from to : Quat T) (t : T) : Quat T :=
  let cosHalfTheta :=
    (w from * w to) + (x from * x to) + (y from * y to) + (z from * z to) in
  if Math_abs cosHalfTheta >= n1 then
    mkQuat (w from) (x from) (y from) (z from)
  else
    let halfTheta := Math_acos cosHalfTheta in
    let sinHalfTheta := Math_sqrt (n1 - cosHalfTheta * cosHalfTheta) in
    if Math_abs sinHalfTheta < n0_001 then
      mkQuat (w from * n0_5 + w to * n0_5)
             (x from * n0_5 + x to * n0_5)
             (y from * n0_5 + y to * n0_5)
             (z from * n0_5 + z to * n0_5)
    else
      let ratioA := Math_sin ((n1 - t) * halfTheta) / sinHalfTheta in
      let ratioB := Math_sin (t * halfTheta) / sinHalfTheta in
      mkQuat (w from * ratioA + w to * ratioB)
             (x from * ratioA + x to * ratioB)
             (y from * ratioA + y to * ratioB)
             (z from * ratioA + z to * ratioB).

End Operations.

(** [Quaternion.random].  The two draws, [Vec3.random()] and
    [Math.random()], are arguments: [Vec3.random] is not among the sources
    and [Math.random] returns a number in [0, 1). *)
Section Random.
Context {T : Type} `{MathLib T}.

Definition random (Vec3_random : Vec3.t T) (Math_random : T) : Quat T :=
  let axis := Vec3.normalize Vec3_random in
  let angle := Math_random in
  rotationRadians angle axis.

End Random.

(** [Quaternion.prototype.toString] prints numbers and is not embedded. *)

(** ** Vocabulary of the specification, in exact arithmetic *)

Local Open Scope R_scope.

(** [w^2 + x^2 + y^2 + z^2] *)
Definition norm2 (q : Quat R) : R := w q * w q + x q * x q + y q * y q + z q * z q.

(** A unit quaternion: [w^2 + x^2 + y^2 + z^2 = 1]. *)
Definition unit_length (q : Quat R) : Prop := norm2 q = 1.

(** The four-field dot product. *)
Definition dot (a b : Quat R) : R := w a * w b + x a * x b + y a * y b + z a * z b.

(** [b] is the antipode [-a] of [a]. *)
Definition antipodal (a b : Quat R) : Prop :=
  b = mkQuat (- w a) (- x a) (- y a) (- z a).

(** The Euclidean magnitude of a 3-component vector. *)
Definition magnitude (v : Vec3.t R) : R :=
  sqrt (Vec3.x v * Vec3.x v + Vec3.y v * Vec3.y v + Vec3.z v * Vec3.z v).

(** Entry (row [i], column [j]) of a flat sequence of nine numbers, read in
    row-major and in column-major order. *)
Definition entry_row_major (m : Mat33.t R) (i j : nat) : R :=
  nth (3 * i + j)%nat (Mat33.data m) 0.

Definition entry_col_major (m : Mat33.t R) (i j : nat) : R :=
  nth (3 * j + i)%nat (Mat33.data m) 0.

(** The product of a 3x3 matrix, given by its entries, and a column vector. *)
Definition apply (entry : nat -> nat -> R) (v : Vec3.t R) : Vec3.t R :=
  let e (i j : nat) := entry i j in
  Vec3.mk
    (e 0%nat 0%nat * Vec3.x v + e 0%nat 1%nat * Vec3.y v + e 0%nat 2%nat * Vec3.z v)
    (e 1%nat 0%nat * Vec3.x v + e 1%nat 1%nat * Vec3.y v + e 1%nat 2%nat * Vec3.z v)
    (e 2%nat 0%nat * Vec3.x v + e 2%nat 1%nat * Vec3.y v + e 2%nat 2%nat * Vec3.z v).

(** The product of a row vector and a 3x3 matrix, given by its entries. *)
Definition apply_row_vector (entry : nat -> nat -> R) (v : Vec3.t R) : Vec3.t R :=
  let e (i j : nat) := entry i j in
  Vec3.mk
    (Vec3.x v * e 0%nat 0%nat + Vec3.y v * e 1%nat 0%nat + Vec3.z v * e 2%nat 0%nat)
    (Vec3.x v * e 0%nat 1%nat + Vec3.y v * e 1%nat 1%nat + Vec3.z v * e 2%nat 1%nat)
    (Vec3.x v * e 0%nat 2%nat + Vec3.y v * e 1%nat 2%nat + Vec3.z v * e 2%nat 2%nat).

(** The standard quaternion-to-matrix formula: entry (row [i], column [j]) of
    the rotation matrix of [q]. *)
Definition rotation_matrix (q : Quat R) (i j : nat) : R :=
  match i, j with
  | 0%nat, 0%nat => 1 - 2 * (y q * y q) - 2 * (z q * z q)
  | 0%nat, 1%nat => 2 * (x q * y q) - 2 * (z q * w q)
  | 0%nat, 2%nat => 2 * (x q * z q) + 2 * (y q * w q)
  | 1%nat, 0%nat => 2 * (x q * y q) + 2 * (z q * w q)
  | 1%nat, 1%nat => 1 - 2 * (x q * x q) - 2 * (z q * z q)
  | 1%nat, 2%nat => 2 * (y q * z q) - 2 * (x q * w q)
  | 2%nat, 0%nat => 2 * (x q * z q) - 2 * (y q * w q)
  | 2%nat, 1%nat => 2 * (y q * z q) + 2 * (x q * w q)
  | 2%nat, 2%nat => 1 - 2 * (x q * x q) - 2 * (y q * y q)
  | _, _ => 0
  end.

(** The fields of a quaternion as JavaScript values. *)
Definition as_values {T : Type} (q : Quat T) : Quat (value T) :=
  mkQuat (VNumber (w q)) (VNumber (x q)) (VNumber (y q)) (VNumber (z q)).

(** A record holding those of the fields [w], [x], [y], [z] that are given,
    and nothing else. *)
Definition property {T : Type} (name : string) (o : option T) : list (key * value T) :=
  match o with
  | Some n => [(KName name, VNumber n)]
  | None => []
  end.

Definition record {T : Type} (ow ox oy oz : option T) : value T :=
  VObject (property "w" ow ++ property "x" ox ++ property "y" oy ++ property "z" oz).

Definition or_default {T : Type} (d : T) (o : option T) : T :=
  match o with Some n => n | None => d end.

(** No field of a constructed object is [undefined]. *)
Definition no_undefined_field {T : Type} (q : Quat (value T)) : Prop :=
  is_undefined (w q) = false /\ is_undefined (x q) = false
  /\ is_undefined (y q) = false /\ is_undefined (z q) = false.

(** A number that [e || 0.0] leaves as it is: a truthy one, or the literal
    zero itself. *)
Definition kept_by_or {T : Type} `{Number T} (e : T) : Prop :=
  ToBoolean e = true \/ e = n0.

(** An argument none of whose eight properties read by the constructor is
    defined. *)
Definition without_properties {T : Type} (argument : value T) : Prop :=
  forall k : key,
    In k [KName "w"; KName "x"; KName "y"; KName "z";
          KIndex 0; KIndex 1; KIndex 2; KIndex 3] ->
    get argument k = Some VUndefined.

(** Every field of [a] is within [eps] of the same field of [b]. *)
Definition within (eps : R) (a b : Quat R) : Prop :=
  Rabs (w a - w b) <= eps /\ Rabs (x a - x b) <= eps
  /\ Rabs (y a - y b) <= eps /\ Rabs (z a - z b) <= eps.

(** Entries of the identity matrix and of a product of two 3x3 matrices. *)
Definition kronecker (i j : nat) : R := if Nat.eqb i j then 1 else 0.

Definition entries_product (m n : nat -> nat -> R) (i j : nat) : R :=
  m i 0%nat * n 0%nat j + m i 1%nat * n 1%nat j + m i 2%nat * n 2%nat j.

(** The quaternion [(cos h, n.x sin h, n.y sin h, n.z sin h)] of the half
    angle [h] about [n]. *)
Definition axis_angle (half : R) (n : Vec3.t R) : Quat R :=
  mkQuat (cos half) (Vec3.x n * sin half) (Vec3.y n * sin half) (Vec3.z n * sin half).

(** ** Vocabulary for doubles

    What a double is, through [Prim2SF]: a signed zero, a signed infinity,
    NaN, or a finite number [(-1)^s * m * 2^e]. *)

(** Not NaN, with sign bit [s]. *)
Definition sf_signed (s : bool) (f : spec_float) : Prop :=
  match f with
  | S754_zero s' | S754_infinity s' | S754_finite s' _ _ => s' = s
  | S754_nan => False
  end.

(** A zero or a finite number: neither NaN nor an infinity. *)
Definition sf_finite (f : spec_float) : Prop :=
  match f with
  | S754_zero _ | S754_finite _ _ _ => True
  | _ => False
  end.

(** A zero of either sign, [+Infinity] or a positive finite number. *)
Definition sf_nonneg (f : spec_float) : Prop :=
  match f with
  | S754_zero _ => True
  | S754_infinity s | S754_finite s _ _ => s = false
  | S754_nan => False
  end.

(** [+Infinity], or a positive number of binary order at least [L]: at
    least [2^(L-1)]. *)
Definition sf_at_least (L : Z) (f : spec_float) : Prop :=
  match f with
  | S754_infinity s => s = false
  | S754_finite s m e => s = false /\ (L <= Zdigits2 (Z.pos m) + e)%Z
  | _ => False
  end.

(** * Properties *)

(** ** Reading the comparisons and the operations at [R] *)

Lemma Rltb_true a b : a < b -> Rltb a b = true.
Proof. intros; unfold Rltb; destruct (Rlt_dec a b); [reflexivity | contradiction]. Qed.

Lemma Rltb_false a b : ~ a < b -> Rltb a b = false.
Proof. intros; unfold Rltb; destruct (Rlt_dec a b); [contradiction | reflexivity]. Qed.

Lemma Rleb_true a b : a <= b -> Rleb a b = true.
Proof. intros; unfold Rleb; destruct (Rle_dec a b); [reflexivity | contradiction]. Qed.

Lemma Rleb_false a b : ~ a <= b -> Rleb a b = false.
Proof. intros; unfold Rleb; destruct (Rle_dec a b); [contradiction | reflexivity]. Qed.

Lemma Reqb_true a b : a = b -> Reqb a b = true.
Proof. intros; unfold Reqb; destruct (Req_dec_T a b); [reflexivity | contradiction]. Qed.

Lemma Reqb_false a b : a <> b -> Reqb a b = false.
Proof. intros; unfold Reqb; destruct (Req_dec_T a b); [contradiction | reflexivity]. Qed.

Ltac js_R :=
  cbv beta iota delta
    [js_add js_sub js_mul js_div js_neg Math_sqrt Math_abs js_lt js_le js_eq
     ToBoolean n0 n1 n2 n180 n0_5 n0_001 Number_R
     Math_PI Math_sin Math_cos Math_acos js_mod MathLib_R].

(** Unfolds the operations that have no branch, down to real arithmetic. *)
Ltac quat_R :=
  cbv beta iota zeta delta
    [rotate mult inverse conjugate matrix identity of_array
     w x y z Vec3.x Vec3.y Vec3.z Vec3.of_array Mat33.data
     js_add js_sub js_mul js_div js_neg Math_sqrt Math_abs js_lt js_le js_eq
     ToBoolean n0 n1 n2 n180 n0_5 n0_001 Number_R
     Math_PI Math_sin Math_cos Math_acos js_mod MathLib_R].

Lemma quat_eq {A : Type} (a b : Quat A) :
  w a = w b -> x a = x b -> y a = y b -> z a = z b -> a = b.
Proof. destruct a, b; simpl; intros; subst; reflexivity. Qed.

Lemma norm2_nonneg (q : Quat R) : 0 <= norm2 q.
Proof. unfold norm2; nra. Qed.

(** ** The constructor *)

Lemma Quaternion_four {T : Type} `{Number T} (q : Quat T) :
  Quaternion [VNumber (w q); VNumber (x q); VNumber (y q); VNumber (z q)]
  = Some (as_values q).
Proof. reflexivity. Qed.

Lemma Quaternion_no_argument {T : Type} `{Number T} :
  Quaternion (T := T) [] = Some (as_values identity).
Proof. reflexivity. Qed.

(** [of_array] is the constructor at an [Array] of numbers. *)
Lemma Quaternion_of_array_numbers {T : Type} `{Number T} (a : list T) :
  Quaternion [VArray (map VNumber a)] = Some (as_values (of_array a)).
Proof.
  destruct a as [|e0 [|e1 [|e2 [|e3 rest]]]]; cbn;
    unfold js_or, truthy, as_values, of_array; cbn;
    repeat match goal with |- context [ToBoolean ?e] => destruct (ToBoolean e) end;
    reflexivity.
Qed.

(** ** Algebra in exact arithmetic *)

Lemma mult_conjugate (q : Quat R) :
  mult q (IsObject (conjugate q)) = mkQuat (norm2 q) 0 0 0.
Proof.
  destruct q as [qw qx qy qz]. unfold norm2. quat_R. f_equal; ring.
Qed.

Lemma rotate_compose (a b : Quat R) (v : Vec3.t R) :
  rotate (mult a (IsObject b)) (IsObject v)
  = rotate a (IsObject (rotate b (IsObject v))).
Proof.
  destruct a, b, v. quat_R. f_equal; ring.
Qed.

Lemma rotate_scales_by_norm2 (q : Quat R) (v : Vec3.t R) :
  let r := rotate q (IsObject v) in
  Vec3.x r * Vec3.x r + Vec3.y r * Vec3.y r + Vec3.z r * Vec3.z r
  = norm2 q * norm2 q * (Vec3.x v * Vec3.x v + Vec3.y v * Vec3.y v + Vec3.z v * Vec3.z v).
Proof.
  destruct q, v. unfold norm2. quat_R. ring.
Qed.

(** ** Normalization in exact arithmetic *)

Lemma normalize_zero (q : Quat R) :
  norm2 q = 0 -> normalize q = mkQuat 1 0 0 0.
Proof.
  intros Hz. unfold normalize; js_R.
  replace (x q * x q + y q * y q + z q * z q + w q * w q) with (norm2 q)
    by (unfold norm2; ring).
  rewrite Hz, sqrt_0, Reqb_true; reflexivity.
Qed.

Lemma normalize_nonzero (q : Quat R) :
  norm2 q <> 0 ->
  normalize q = mkQuat (w q / sqrt (norm2 q)) (x q / sqrt (norm2 q))
                       (y q / sqrt (norm2 q)) (z q / sqrt (norm2 q)).
Proof.
  intros Hnz. unfold normalize; js_R.
  replace (x q * x q + y q * y q + z q * z q + w q * w q) with (norm2 q)
    by (unfold norm2; ring).
  rewrite Reqb_false; [reflexivity |].
  intros Hs. apply Hnz, sqrt_eq_0; [apply norm2_nonneg | exact Hs].
Qed.

Lemma normalize_unit_length (q : Quat R) : unit_length (normalize q).
Proof.
  unfold unit_length.
  destruct (Req_dec_T (norm2 q) 0) as [Hz | Hnz].
  - rewrite (normalize_zero q Hz). unfold norm2; simpl; ring.
  - rewrite (normalize_nonzero q Hnz).
    assert (Hpos : 0 < norm2 q) by (pose proof (norm2_nonneg q); lra).
    assert (Hs : sqrt (norm2 q) * sqrt (norm2 q) = norm2 q)
      by (apply sqrt_sqrt; lra).
    assert (Hs0 : sqrt (norm2 q) <> 0)
      by (pose proof (sqrt_lt_R0 _ Hpos); lra).
    unfold norm2 at 1; simpl.
    replace (w q / sqrt (norm2 q) * (w q / sqrt (norm2 q)) +
             x q / sqrt (norm2 q) * (x q / sqrt (norm2 q)) +
             y q / sqrt (norm2 q) * (y q / sqrt (norm2 q)) +
             z q / sqrt (norm2 q) * (z q / sqrt (norm2 q)))
      with (norm2 q / (sqrt (norm2 q) * sqrt (norm2 q)))
      by (unfold norm2 at 1; field; exact Hs0).
    rewrite Hs. field. lra.
Qed.

Lemma normalize_of_unit (q : Quat R) : unit_length q -> normalize q = q.
Proof.
  intros Hu. unfold unit_length in Hu.
  rewrite normalize_nonzero by lra.
  rewrite Hu, sqrt_1. destruct q; simpl. f_equal; field.
Qed.

(** ** Normalization on doubles

    [binary64] arithmetic as [SpecFloat] defines it: how many binary digits
    a mantissa has, what rounding returns, and from there that the
    operations [normalize] uses keep finite fields finite. *)

Section Binary64.
Local Open Scope Z_scope.

Lemma digits2_pos_size (p : positive) : digits2_pos p = Pos.size p.
Proof. induction p; simpl; congruence. Qed.

Lemma Zdigits2_log2 (n : Z) : 0 < n -> Zdigits2 n = Z.log2 n + 1.
Proof.
  destruct n as [|p|p]; try lia. intros _. simpl.
  destruct p; simpl; rewrite ?digits2_pos_size; lia.
Qed.

Lemma Zdigits2_nonneg (n : Z) : 0 <= Zdigits2 n.
Proof. destruct n; simpl; lia. Qed.

Lemma Zdigits2_pos (n : Z) : 0 < n -> 0 < Zdigits2 n.
Proof. destruct n; simpl; lia. Qed.

(** [n < 2^k] bounds the digits from above, [2^k <= n] from below. *)
Lemma Zdigits2_le (n k : Z) : 0 <= n -> 0 <= k -> n < 2 ^ k -> Zdigits2 n <= k.
Proof.
  intros Hn Hk Hlt. destruct (Z.eq_dec n 0) as [-> | Hnz]; [simpl; lia |].
  rewrite Zdigits2_log2 by lia.
  apply (Z.log2_lt_pow2 n k) in Hlt; lia.
Qed.

Lemma Zdigits2_ge (n k : Z) : 0 <= k -> 2 ^ k <= n -> k + 1 <= Zdigits2 n.
Proof.
  intros Hk Hle.
  assert (0 < n) by (pose proof (Z.pow_pos_nonneg 2 k); lia).
  rewrite Zdigits2_log2 by lia.
  apply (Z.log2_le_pow2 n k) in Hle; lia.
Qed.

Lemma Zdigits2_bounds (n : Z) :
  0 < n -> 2 ^ (Zdigits2 n - 1) <= n < 2 ^ Zdigits2 n.
Proof.
  intros Hn. rewrite Zdigits2_log2 by lia.
  pose proof (Z.log2_spec n Hn) as H.
  replace (Z.log2 n + 1 - 1) with (Z.log2 n) by lia.
  replace (Z.log2 n + 1) with (Z.succ (Z.log2 n)) by lia. exact H.
Qed.

Lemma Zdigits2_mono (a b : Z) : 0 <= a <= b -> Zdigits2 a <= Zdigits2 b.
Proof.
  intros [Ha Hab]. destruct (Z.eq_dec a 0) as [-> | Hnz].
  - apply Zdigits2_nonneg.
  - rewrite !Zdigits2_log2 by lia. pose proof (Z.log2_le_mono a b Hab). lia.
Qed.

Lemma Zdigits2_succ (n : Z) : 0 <= n -> Zdigits2 (n + 1) <= Zdigits2 n + 1.
Proof.
  intros Hn. destruct (Z.eq_dec n 0) as [-> | Hnz]; [simpl; lia |].
  pose proof (Zdigits2_bounds n ltac:(lia)) as [_ Hb].
  apply Zdigits2_le; try lia.
  - pose proof (Zdigits2_nonneg n). lia.
  - rewrite Z.pow_add_r by (pose proof (Zdigits2_nonneg n); lia). lia.
Qed.

(** digits of a quotient by a power of two *)
Lemma Zdigits2_div_pow2_le (n k : Z) :
  0 <= n -> 0 <= k -> Zdigits2 (n / 2 ^ k) <= Z.max 0 (Zdigits2 n - k).
Proof.
  intros Hn Hk.
  assert (Hp : 0 < 2 ^ k) by (apply Z.pow_pos_nonneg; lia).
  destruct (Z.eq_dec n 0) as [-> | Hnz].
  - rewrite Z.div_0_l by lia. simpl. lia.
  - pose proof (Zdigits2_bounds n ltac:(lia)) as [_ Hb].
    pose proof (Zdigits2_pos n ltac:(lia)) as Hd.
    destruct (Z_le_gt_dec (Zdigits2 n) k) as [Hle | Hgt].
    + assert (n / 2 ^ k = 0).
      { apply Z.div_small. split; [lia |].
        eapply Z.lt_le_trans; [exact Hb |]. apply Z.pow_le_mono_r; lia. }
      rewrite H. simpl. lia.
    + apply Z.le_trans with (Zdigits2 n - k); [| lia].
      apply Zdigits2_le; try lia.
      * apply Z.div_pos; lia.
      * apply Z.div_lt_upper_bound; [lia |].
        rewrite <- Z.pow_add_r by lia.
        replace (k + (Zdigits2 n - k)) with (Zdigits2 n) by lia. exact Hb.
Qed.

Lemma Zdigits2_div_pow2_ge (n k : Z) :
  0 < n -> 0 <= k -> k < Zdigits2 n ->
  0 < n / 2 ^ k /\ Zdigits2 n - k <= Zdigits2 (n / 2 ^ k).
Proof.
  intros Hn Hk Hlt.
  assert (Hp : 0 < 2 ^ k) by (apply Z.pow_pos_nonneg; lia).
  pose proof (Zdigits2_bounds n Hn) as [Ha _].
  assert (Hq : 2 ^ (Zdigits2 n - 1 - k) <= n / 2 ^ k).
  { apply Z.div_le_lower_bound; [lia |].
    rewrite <- Z.pow_add_r by lia.
    replace (k + (Zdigits2 n - 1 - k)) with (Zdigits2 n - 1) by lia. exact Ha. }
  assert (0 < 2 ^ (Zdigits2 n - 1 - k)) by (apply Z.pow_pos_nonneg; lia).
  split; [lia |].
  pose proof (Zdigits2_ge (n / 2 ^ k) (Zdigits2 n - 1 - k) ltac:(lia) Hq). lia.
Qed.

(** shifting right *)
Lemma shr_1_m (mrs : shr_record) :
  0 <= shr_m mrs -> shr_m (shr_1 mrs) = shr_m mrs / 2.
Proof.
  destruct mrs as [m r s]. simpl. intros Hm.
  destruct m as [|[p|p|]|p]; simpl; try lia; try reflexivity.
  - rewrite Pos2Z.inj_xI.
    apply (Z.div_unique (2 * Z.pos p + 1) 2 (Z.pos p) 1); lia.
  - rewrite Pos2Z.inj_xO.
    apply (Z.div_unique (2 * Z.pos p) 2 (Z.pos p) 0); lia.
Qed.

Lemma iter_pos_count {A : Type} (Q : Z -> A -> Prop) (f : A -> A) :
  (forall k a, 0 <= k -> Q k a -> Q (k + 1) (f a)) ->
  forall (p : positive) (k : Z) (a : A),
    0 <= k -> Q k a -> Q (k + Z.pos p) (SpecFloat.iter_pos f p a).
Proof.
  intros Hf. induction p as [p IH | p IH |]; intros k a Hk Ha; simpl.
  - replace (k + Z.pos p~1) with (k + 1 + Z.pos p + Z.pos p) by lia.
    apply IH; [lia |]. apply IH; [lia |]. apply Hf; assumption.
  - replace (k + Z.pos p~0) with (k + Z.pos p + Z.pos p) by lia.
    apply IH; [lia |]. apply IH; assumption.
  - apply Hf; assumption.
Qed.

Lemma shr_m_iter (p : positive) (mrs : shr_record) :
  0 <= shr_m mrs ->
  shr_m (SpecFloat.iter_pos shr_1 p mrs) = shr_m mrs / 2 ^ Z.pos p.
Proof.
  intros Hm.
  pose proof (iter_pos_count
    (fun k r => shr_m r = shr_m mrs / 2 ^ k) shr_1) as H.
  apply (H ltac:(
    intros k a Hk Ha; cbv beta;
    rewrite shr_1_m by (rewrite Ha; apply Z.div_pos; [lia | apply Z.pow_pos_nonneg; lia]);
    rewrite Ha, Z.div_div by (try apply Z.pow_nonzero; lia);
    rewrite Z.pow_add_r by lia; reflexivity) p 0 mrs (Z.le_refl 0)).
  cbv beta. rewrite Z.pow_0_r, Z.div_1_r. reflexivity.
Qed.

Lemma shr_record_of_loc_m (m : Z) (l : location) : shr_m (shr_record_of_loc m l) = m.
Proof. destruct l as [|[| |]]; reflexivity. Qed.

(** [shr_fexp]: the mantissa and exponent it returns *)
Lemma shr_fexp_spec (prec emax m e : Z) (l : location) :
  0 <= m ->
  let n := fexp prec emax (Zdigits2 m + e) - e in
  (0 < n ->
   shr_m (fst (shr_fexp prec emax m e l)) = m / 2 ^ n
   /\ snd (shr_fexp prec emax m e l) = e + n)
  /\ (n <= 0 ->
      shr_m (fst (shr_fexp prec emax m e l)) = m
      /\ snd (shr_fexp prec emax m e l) = e).
Proof.
  intros Hm n. unfold shr_fexp. fold n. split; intros Hn.
  - destruct n as [|p|p]; try lia. simpl. split; [| reflexivity].
    rewrite shr_m_iter by (rewrite shr_record_of_loc_m; exact Hm).
    rewrite shr_record_of_loc_m. reflexivity.
  - destruct n as [|p|p]; try lia; simpl; rewrite shr_record_of_loc_m; auto.
Qed.

Lemma round_nearest_even_bounds (m : Z) (l : location) :
  m <= round_nearest_even m l <= m + 1.
Proof.
  unfold round_nearest_even.
  destruct l as [|[| |]]; try destruct (Z.even m); lia.
Qed.

Section Rounding.
Variables prec emax : Z.
Hypothesis Hprec : 0 < prec.
Hypothesis Hemax : SpecFloat.emin prec emax <= emax - prec.

Lemma fexp_le (E : Z) : E <= emax -> fexp prec emax E <= emax - prec.
Proof. unfold fexp. lia. Qed.

Lemma fexp_lt (E : Z) : SpecFloat.emin prec emax < E -> fexp prec emax E < E.
Proof. unfold fexp. lia. Qed.

Lemma shr_fexp_step (m e : Z) (l : location) :
  0 <= m ->
  let m' := shr_m (fst (shr_fexp prec emax m e l)) in
  let e' := snd (shr_fexp prec emax m e l) in
  0 <= m'
  /\ (Zdigits2 m + e <= emax -> e <= emax - prec -> e' <= emax - prec)
  /\ (Zdigits2 m + e < emax -> e <= emax - prec -> Zdigits2 m' + e' < emax)
  /\ (0 < m -> SpecFloat.emin prec emax < Zdigits2 m + e ->
      0 < m' /\ Zdigits2 m + e <= Zdigits2 m' + e').
Proof.
  intros Hm m' e'.
  destruct (shr_fexp_spec prec emax m e l Hm) as [Hpos Hneg].
  fold m' e' in Hpos, Hneg.
  set (n := fexp prec emax (Zdigits2 m + e) - e) in *.
  destruct (Z_lt_le_dec 0 n) as [Hn | Hn].
  - destruct (Hpos Hn) as [Hm' He'].
    assert (Hp : 0 < 2 ^ n) by (apply Z.pow_pos_nonneg; lia).
    pose proof (Zdigits2_div_pow2_le m n Hm ltac:(lia)) as Hd.
    rewrite <- Hm' in Hd.
    split; [rewrite Hm'; apply Z.div_pos; lia |].
    split; [intros HE _; pose proof (fexp_le (Zdigits2 m + e) HE); lia |].
    split; [intros HE _; pose proof (fexp_le (Zdigits2 m + e) ltac:(lia)); lia |].
    intros Hmp HE. pose proof (fexp_lt (Zdigits2 m + e) HE) as Hlt.
    pose proof (Zdigits2_div_pow2_ge m n Hmp ltac:(lia) ltac:(lia)) as Hge.
    rewrite <- Hm' in Hge. lia.
  - destruct (Hneg Hn) as [Hm' He']. rewrite Hm', He'.
    repeat split; lia.
Qed.

(** [binary_round_aux]: what is returned, with the final mantissa and
    exponent bounded from the initial ones. *)
Lemma binary_round_aux_view (sx : bool) (mx ex : Z) (lx : location) :
  0 <= mx ->
  exists m2 e2 : Z,
    binary_round_aux prec emax sx mx ex lx =
      match m2 with
      | Z0 => S754_zero sx
      | Z.pos m => if e2 <=? emax - prec then S754_finite sx m e2 else S754_infinity sx
      | Z.neg _ => S754_nan
      end
    /\ 0 <= m2
    /\ (Zdigits2 mx + ex < emax -> ex <= emax - prec -> e2 <= emax - prec)
    /\ (0 < mx -> SpecFloat.emin prec emax < Zdigits2 mx + ex ->
        0 < m2 /\ Zdigits2 mx + ex <= Zdigits2 m2 + e2).
Proof.
  intros Hm. unfold binary_round_aux.
  pose proof (shr_fexp_step mx ex lx Hm) as H1. cbv zeta in H1.
  destruct (shr_fexp prec emax mx ex lx) as [mrs' e'] eqn:E1. simpl in H1.
  destruct H1 as (Hm' & Hu1 & Hu1' & Hl1).
  pose proof (round_nearest_even_bounds (shr_m mrs') (loc_of_shr_record mrs')) as Hr.
  set (m1 := round_nearest_even (shr_m mrs') (loc_of_shr_record mrs')) in *.
  assert (Hm1 : 0 <= m1) by lia.
  pose proof (shr_fexp_step m1 e' loc_Exact Hm1) as H2. cbv zeta in H2.
  destruct (shr_fexp prec emax m1 e' loc_Exact) as [mrs'' e''] eqn:E2. simpl in H2.
  destruct H2 as (Hm'' & Hu2 & _ & Hl2).
  exists (shr_m mrs''), e''. split; [reflexivity |]. split; [exact Hm'' |]. split.
  - intros HE Hex. apply Hu2; [| apply Hu1; lia].
    pose proof (Zdigits2_mono m1 (shr_m mrs' + 1) ltac:(lia)).
    pose proof (Zdigits2_succ (shr_m mrs') Hm').
    specialize (Hu1' HE Hex). lia.
  - intros Hmp HE. destruct (Hl1 Hmp HE) as [Hp1 Hge1].
    pose proof (Zdigits2_mono (shr_m mrs') m1 ltac:(lia)).
    destruct (Hl2 ltac:(lia) ltac:(lia)) as [Hp2 Hge2]. split; [exact Hp2 | lia].
Qed.

Lemma binary_round_aux_signed (sx : bool) (mx ex : Z) (lx : location) :
  0 <= mx -> sf_signed sx (binary_round_aux prec emax sx mx ex lx).
Proof.
  intros Hm. destruct (binary_round_aux_view sx mx ex lx Hm) as (m2 & e2 & -> & Hm2 & _).
  destruct m2 as [|p|p]; try lia; simpl; [reflexivity |].
  destruct (e2 <=? emax - prec); reflexivity.
Qed.

Lemma binary_round_aux_finite (sx : bool) (mx ex : Z) (lx : location) :
  0 <= mx -> Zdigits2 mx + ex < emax -> ex <= emax - prec ->
  sf_finite (binary_round_aux prec emax sx mx ex lx).
Proof.
  intros Hm HE Hex.
  destruct (binary_round_aux_view sx mx ex lx Hm) as (m2 & e2 & -> & Hm2 & Hu & _).
  destruct m2 as [|p|p]; try lia; simpl; [exact I |].
  specialize (Hu HE Hex). apply Z.leb_le in Hu. rewrite Hu. exact I.
Qed.

Lemma binary_round_aux_at_least (mx ex : Z) (lx : location) :
  0 < mx -> SpecFloat.emin prec emax < Zdigits2 mx + ex ->
  sf_at_least (Zdigits2 mx + ex) (binary_round_aux prec emax false mx ex lx).
Proof.
  intros Hm HE.
  destruct (binary_round_aux_view false mx ex lx ltac:(lia)) as (m2 & e2 & -> & _ & _ & Hl).
  destruct (Hl Hm HE) as [Hp Hge].
  destruct m2 as [|p|p]; try lia. 
  destruct (e2 <=? emax - prec); simpl; auto.
Qed.

Lemma sf_signed_nonneg (f : spec_float) : sf_signed false f -> sf_nonneg f.
Proof. destruct f; simpl; auto. Qed.

Lemma sf_at_least_weaken (L L' : Z) (f : spec_float) :
  L' <= L -> sf_at_least L f -> sf_at_least L' f.
Proof. destruct f; simpl; auto. intros HL [Hs HE]. split; [exact Hs | lia]. Qed.

Lemma sf_at_least_nonneg (L : Z) (f : spec_float) : sf_at_least L f -> sf_nonneg f.
Proof. destruct f; simpl; tauto. Qed.

Lemma digits2_pos_iter_xO (m d : positive) :
  Z.pos (digits2_pos (Pos.iter xO m d)) = Z.pos (digits2_pos m) + Z.pos d.
Proof.
  induction d as [| d IH] using Pos.peano_ind.
  - simpl. lia.
  - rewrite Pos.iter_succ. simpl digits2_pos. lia.
Qed.

Lemma shl_align_order (m : positive) (e e' : Z) :
  Zdigits2 (Z.pos (fst (shl_align m e e'))) + snd (shl_align m e e')
  = Zdigits2 (Z.pos m) + e.
Proof.
  unfold shl_align. destruct (e' - e) as [|d|d] eqn:Ed; cbn [fst snd Zdigits2];
    try reflexivity.
  rewrite digits2_pos_iter_xO. lia.
Qed.

Lemma shl_align_snd (m : positive) (e e' : Z) :
  e' <= e -> snd (shl_align m e e') = e'.
Proof.
  intros Hle. unfold shl_align. destruct (e' - e) as [|d|d] eqn:Ed; simpl; lia.
Qed.

Lemma binary_round_signed (sx : bool) (mx : positive) (ex : Z) :
  sf_signed sx (binary_round prec emax sx mx ex).
Proof.
  unfold binary_round.
  destruct (shl_align mx ex _) as [mz ez].
  apply binary_round_aux_signed. lia.
Qed.

Lemma binary_round_at_least (mx : positive) (ex : Z) :
  SpecFloat.emin prec emax < Zdigits2 (Z.pos mx) + ex ->
  sf_at_least (Zdigits2 (Z.pos mx) + ex) (binary_round prec emax false mx ex).
Proof.
  intros HE. unfold binary_round.
  pose proof (shl_align_order mx ex (fexp prec emax (Z.pos (digits2_pos mx) + ex))) as Ho.
  destruct (shl_align mx ex _) as [mz ez]. cbn [fst snd] in Ho.
  rewrite <- Ho. apply binary_round_aux_at_least; lia.
Qed.

(** ** Multiplication, addition, square root and division of [SpecFloat] *)

Lemma SFmul_square_nonneg (f : spec_float) :
  sf_finite f -> sf_nonneg (SFmul prec emax f f).
Proof.
  destruct f as [s | s | | s m e]; simpl; try tauto. intros _.
  apply sf_signed_nonneg.
  replace (xorb s s) with false by (destruct s; reflexivity).
  apply binary_round_aux_signed. lia.
Qed.

Lemma SFmul_square_at_least (s : bool) (m : positive) (e : Z) :
  SpecFloat.emin prec emax < 2 * (Zdigits2 (Z.pos m) + e) - 1 ->
  sf_at_least (2 * (Zdigits2 (Z.pos m) + e) - 1)
    (SFmul prec emax (S754_finite s m e) (S754_finite s m e)).
Proof.
  intros HE. simpl SFmul.
  replace (xorb s s) with false by (destruct s; reflexivity).
  assert (Hd : 2 * Zdigits2 (Z.pos m) - 1 <= Zdigits2 (Z.pos (m * m))).
  { pose proof (Zdigits2_bounds (Z.pos m) ltac:(lia)) as [Hlo _].
    pose proof (Zdigits2_pos (Z.pos m) ltac:(lia)) as Hp.
    pose proof (Zdigits2_ge (Z.pos (m * m)) (2 * (Zdigits2 (Z.pos m) - 1)) ltac:(lia)) as Hg.
    assert (H2 : 2 ^ (2 * (Zdigits2 (Z.pos m) - 1)) <= Z.pos (m * m)).
    { replace (2 * (Zdigits2 (Z.pos m) - 1))
        with ((Zdigits2 (Z.pos m) - 1) + (Zdigits2 (Z.pos m) - 1)) by lia.
      rewrite Z.pow_add_r by lia. rewrite Pos2Z.inj_mul.
      apply Z.mul_le_mono_nonneg; try lia; apply Z.pow_nonneg; lia. }
    specialize (Hg H2). lia. }
  eapply sf_at_least_weaken; [| apply binary_round_aux_at_least; lia]. lia.
Qed.

Lemma SFadd_nonneg (f g : spec_float) :
  sf_nonneg f -> sf_nonneg g -> sf_nonneg (SFadd prec emax f g).
Proof.
  destruct f as [sf | sf | | sf mf ef], g as [sg | sg | | sg mg eg]; simpl;
    try tauto; intros Hf Hg; subst; simpl; auto.
  - destruct sf, sg; simpl; auto.
  - apply sf_signed_nonneg. unfold binary_normalize. simpl.
    apply binary_round_signed.
Qed.

Lemma SFadd_finite_at_least (L : Z) (mf mg : positive) (ef eg : Z) :
  SpecFloat.emin prec emax < L ->
  L <= Zdigits2 (Z.pos mf) + ef \/ L <= Zdigits2 (Z.pos mg) + eg ->
  sf_at_least L
    (SFadd prec emax (S754_finite false mf ef) (S754_finite false mg eg)).
Proof.
  intros HL HE. simpl SFadd.
  pose proof (shl_align_order mf ef (Z.min ef eg)) as Hof.
  pose proof (shl_align_order mg eg (Z.min ef eg)) as Hog.
  rewrite shl_align_snd in Hof by lia. rewrite shl_align_snd in Hog by lia.
  set (a := fst (shl_align mf ef (Z.min ef eg))) in *.
  set (b := fst (shl_align mg eg (Z.min ef eg))) in *.
  simpl binary_normalize.
  assert (Hd : L <= Zdigits2 (Z.pos (a + b)) + Z.min ef eg).
  { pose proof (Zdigits2_mono (Z.pos a) (Z.pos (a + b)) ltac:(lia)).
    pose proof (Zdigits2_mono (Z.pos b) (Z.pos (a + b)) ltac:(lia)).
    lia. }
  eapply sf_at_least_weaken; [exact Hd | apply binary_round_at_least; lia].
Qed.

Lemma SFadd_at_least_l (L : Z) (f g : spec_float) :
  SpecFloat.emin prec emax < L ->
  sf_at_least L f -> sf_nonneg g -> sf_at_least L (SFadd prec emax f g).
Proof.
  intros HL.
  destruct f as [sf | sf | | sf mf ef], g as [sg | sg | | sg mg eg];
    try (simpl; tauto); intros Hf Hg; simpl in Hf, Hg;
    try (subst; simpl; auto; fail).
  destruct Hf as [-> Hf]. subst.
  apply SFadd_finite_at_least; [exact HL | left; exact Hf].
Qed.

Lemma SFadd_at_least_r (L : Z) (f g : spec_float) :
  SpecFloat.emin prec emax < L ->
  sf_nonneg f -> sf_at_least L g -> sf_at_least L (SFadd prec emax f g).
Proof.
  intros HL.
  destruct f as [sf | sf | | sf mf ef], g as [sg | sg | | sg mg eg];
    try (simpl; tauto); intros Hf Hg; simpl in Hf, Hg;
    try (subst; simpl; auto; fail).
  destruct Hg as [-> Hg]. subst.
  apply SFadd_finite_at_least; [exact HL | right; exact Hg].
Qed.

Lemma SFsqrt_core_binary_nonneg (m : positive) (e : Z) :
  0 <= fst (fst (SFsqrt_core_binary prec emax (Z.pos m) e)).
Proof.
  unfold SFsqrt_core_binary.
  match goal with
  | |- context [Z.sqrtrem ?a] =>
      pose proof (Z.sqrtrem_sqrt a) as Hs; destruct (Z.sqrtrem a) as [q r]
  end.
  simpl in *. rewrite Hs. apply Z.sqrt_nonneg.
Qed.

Lemma SFsqrt_nonneg (f : spec_float) :
  sf_nonneg f -> sf_nonneg (SFsqrt prec emax f).
Proof.
  destruct f as [s | s | | s m e]; simpl; try tauto; intros Hf; subst; simpl; auto.
  apply sf_signed_nonneg.
  pose proof (SFsqrt_core_binary_nonneg m e) as Hq.
  destruct (SFsqrt_core_binary prec emax (Zpos m) e) as [[mz ez] lz].
  apply binary_round_aux_signed. exact Hq.
Qed.

Lemma shift_match (m sh : Z) :
  0 <= sh ->
  match sh with 0 => m | Z.pos _ => Z.shiftl m sh | Z.neg _ => 0 end = m * 2 ^ sh.
Proof.
  intros Hsh. destruct sh as [|p|p]; try lia.
  apply Z.shiftl_mul_pow2. lia.
Qed.

Lemma SFsqrt_at_least (K : Z) (f : spec_float) :
  SpecFloat.emin prec emax < K ->
  sf_at_least (2 * K - 1) f -> sf_at_least K (SFsqrt prec emax f).
Proof.
  intros HK. destruct f as [s | s | | s m e]; cbn [sf_at_least SFsqrt]; try tauto.
  - intros ->. reflexivity.
  - intros [-> HE].
    unfold SFsqrt_core_binary.
    set (d := Zdigits2 (Z.pos m)) in *.
    set (e' := Z.min (fexp prec emax (Z.div2 (d + e + 1))) (Z.div2 e)).
    set (sh := e - 2 * e').
    assert (Hsh : 0 <= sh).
    { unfold sh, e'. rewrite (Z.div2_div e).
      pose proof (Z.mul_div_le e 2 ltac:(lia)). lia. }
    set (m' := match sh with 0 => Z.pos m | Z.pos _ => Z.shiftl (Z.pos m) sh | Z.neg _ => 0 end).
    assert (Hm' : m' = Z.pos m * 2 ^ sh).
    { unfold m'. apply shift_match. exact Hsh. }
    pose proof (Z.sqrtrem_sqrt m') as Hs. destruct (Z.sqrtrem m') as [q r].
    simpl in Hs. subst q.
    pose proof (Zdigits2_bounds (Z.pos m) ltac:(lia)) as [Hlo _]. fold d in Hlo.
    pose proof (Zdigits2_pos (Z.pos m) ltac:(lia)) as Hdp. fold d in Hdp.
    assert (Hp : 0 < 2 ^ sh) by (apply Z.pow_pos_nonneg; lia).
    assert (Hm'1 : 1 <= m') by (rewrite Hm'; nia).
    assert (Hq1 : 1 <= Z.sqrt m').
    { apply Z.sqrt_le_square; lia. }
    assert (Hshe : sh = e - 2 * e') by reflexivity.
    clearbody m' sh e' d.
    assert (Hd : K <= Zdigits2 (Z.sqrt m') + e').
    { destruct (Z_lt_le_dec (K - e' - 1) 0) as [Hneg | Hk].
      - pose proof (Zdigits2_pos (Z.sqrt m') ltac:(lia)). lia.
      - pose proof (Zdigits2_ge (Z.sqrt m') (K - e' - 1) Hk) as Hg.
        assert (H2 : 2 ^ (K - e' - 1) <= Z.sqrt m').
        { apply Z.sqrt_le_square; [lia | apply Z.pow_nonneg; lia |].
          rewrite <- Z.pow_add_r by lia. rewrite Hm'.
          transitivity (2 ^ (d - 1 + sh)).
          - apply Z.pow_le_mono_r; lia.
          - rewrite Z.pow_add_r by lia. apply Z.mul_le_mono_nonneg_r; lia. }
        specialize (Hg H2). lia. }
    eapply sf_at_least_weaken; [exact Hd |].
    apply binary_round_aux_at_least; lia.
Qed.

Lemma SFdiv_core_binary_bounds (m1 m2 : positive) (e1 e2 : Z) :
  Zdigits2 (Z.pos m1) + e1 - (Zdigits2 (Z.pos m2) + e2) <= emax - 2 ->
  let q := fst (fst (SFdiv_core_binary prec emax (Z.pos m1) e1 (Z.pos m2) e2)) in
  let e' := snd (fst (SFdiv_core_binary prec emax (Z.pos m1) e1 (Z.pos m2) e2)) in
  0 <= q /\ Zdigits2 q + e' < emax /\ e' <= emax - prec.
Proof.
  intros HD. unfold SFdiv_core_binary.
  set (d1 := Zdigits2 (Z.pos m1)) in *. set (d2 := Zdigits2 (Z.pos m2)) in *.
  set (e' := Z.min (fexp prec emax (d1 + e1 - (d2 + e2))) (e1 - e2)).
  set (sh := e1 - e2 - e').
  assert (Hsh : 0 <= sh) by (unfold sh, e'; lia).
  set (m' := match sh with 0 => Z.pos m1 | Z.pos _ => Z.shiftl (Z.pos m1) sh | Z.neg _ => 0 end).
  assert (Hm' : m' = Z.pos m1 * 2 ^ sh).
  { unfold m'. apply shift_match. exact Hsh. }
  pose proof (Z_div_mod m' (Z.pos m2) ltac:(lia)) as Hdm.
  destruct (Z.div_eucl m' (Z.pos m2)) as [q r]. cbn [fst snd]. destruct Hdm as [Hq Hr].
  assert (Hp : 0 < 2 ^ sh) by (apply Z.pow_pos_nonneg; lia).
  assert (Hq0 : 0 <= q) by nia.
  pose proof (Zdigits2_bounds (Z.pos m1) ltac:(lia)) as [_ Hhi1]. fold d1 in Hhi1.
  pose proof (Zdigits2_bounds (Z.pos m2) ltac:(lia)) as [Hlo2 _]. fold d2 in Hlo2.
  pose proof (Zdigits2_pos (Z.pos m1) ltac:(lia)) as Hd1p. fold d1 in Hd1p.
  pose proof (Zdigits2_pos (Z.pos m2) ltac:(lia)) as Hd2p. fold d2 in Hd2p.
  assert (He' : e' <= emax - prec).
  { unfold e'. pose proof (fexp_le (d1 + e1 - (d2 + e2)) ltac:(lia)). lia. }
  split; [exact Hq0 |]. split; [| exact He'].
  assert (Hm'lt : m' < 2 ^ (d1 + sh)).
  { rewrite Hm', Z.pow_add_r by lia. apply Z.mul_lt_mono_pos_r; lia. }
  destruct (Z_lt_le_dec (d1 + sh - d2 + 1) 0) as [Hneg | Hk].
  - assert (q = 0).
    { assert (m' < Z.pos m2).
      { eapply Z.lt_le_trans; [exact Hm'lt |].
        eapply Z.le_trans; [| exact Hlo2]. apply Z.pow_le_mono_r; lia. }
      nia. }
    subst q. simpl Zdigits2. lia.
  - assert (Hqlt : q < 2 ^ (d1 + sh - d2 + 1)).
    { destruct (Z_lt_le_dec q (2 ^ (d1 + sh - d2 + 1))) as [Hlt | Hge]; [exact Hlt |].
      exfalso.
      assert (2 ^ (d1 + sh) <= Z.pos m2 * q).
      { replace (d1 + sh) with ((d2 - 1) + (d1 + sh - d2 + 1)) by lia.
        rewrite Z.pow_add_r by lia.
        apply Z.mul_le_mono_nonneg; try lia; apply Z.pow_nonneg; lia. }
      lia. }
    pose proof (Zdigits2_le q (d1 + sh - d2 + 1) Hq0 Hk Hqlt). unfold sh in *. lia.
Qed.

Lemma SFdiv_finite (f g : spec_float) :
  sf_finite f -> sf_nonneg g -> SFeqb g (S754_zero false) = false ->
  (forall s1 m1 e1 s2 m2 e2,
      f = S754_finite s1 m1 e1 -> g = S754_finite s2 m2 e2 ->
      Zdigits2 (Z.pos m1) + e1 - (Zdigits2 (Z.pos m2) + e2) <= emax - 2) ->
  sf_finite (SFdiv prec emax f g).
Proof.
  destruct f as [sf | sf | | sf mf ef], g as [sg | sg | | sg mg eg]; simpl;
    try tauto; try discriminate; intros _ Hg Hz HD.
  specialize (HD sf mf ef sg mg eg eq_refl eq_refl).
  pose proof (SFdiv_core_binary_bounds mf mg ef eg HD) as Hb. cbv zeta in Hb.
  destruct (SFdiv_core_binary prec emax (Zpos mf) ef (Zpos mg) eg) as [[mz ez] lz].
  cbn [fst snd] in Hb. destruct Hb as (Hq & HE & He).
  apply binary_round_aux_finite; assumption.
Qed.

Lemma valid_binary_order (s : bool) (m : positive) (e : Z) :
  SpecFloat.valid_binary prec emax (S754_finite s m e) = true ->
  SpecFloat.emin prec emax < Zdigits2 (Z.pos m) + e.
Proof.
  cbn [SpecFloat.valid_binary]. unfold bounded, canonical_mantissa. intros Hv.
  apply andb_prop in Hv. destruct Hv as [Hc _].
  apply Z.eqb_eq in Hc. unfold fexp in Hc. cbn [Zdigits2].
  lia.
Qed.

End Rounding.

(** ** Doubles: [binary64] through [Prim2SF] *)

Lemma binary64_prec : 0 < prec.
Proof. reflexivity. Qed.

Lemma binary64_emax : SpecFloat.emin prec emax <= emax - prec.
Proof. vm_compute. discriminate. Qed.

Lemma SFeqb_refl_finite (f : spec_float) : sf_finite f -> SFeqb f f = true.
Proof.
  destruct f as [s | s | | s m e]; simpl; try tauto; intros _.
  unfold SFeqb, SFcompare. rewrite Z.compare_refl.
  change (PosDef.Pos.compare_cont Eq m m) with (Pos.compare m m).
  rewrite Pos.compare_refl. destruct s; reflexivity.
Qed.

Lemma is_finite_spec (a : float) :
  PrimFloat.is_finite a = true <-> sf_finite (Prim2SF a).
Proof.
  unfold PrimFloat.is_finite, PrimFloat.is_nan, PrimFloat.is_infinity.
  rewrite !FloatAxioms.eqb_spec, FloatAxioms.abs_spec.
  change (Prim2SF infinity) with (S754_infinity false).
  destruct (Prim2SF a) as [s | s | | s m e] eqn:Ea; simpl.
  - tauto.
  - split; [destruct s; discriminate | tauto].
  - split; [discriminate | tauto].
  - split; [tauto | intros _].
    pose proof (SFeqb_refl_finite (S754_finite s m e) I) as Hr.
    rewrite Hr. reflexivity.
Qed.

Section NormalizeDoubles.
Variable q : Quat float.
Hypothesis Hw : PrimFloat.is_finite (w q) = true.
Hypothesis Hx : PrimFloat.is_finite (x q) = true.
Hypothesis Hy : PrimFloat.is_finite (y q) = true.
Hypothesis Hz : PrimFloat.is_finite (z q) = true.

Lemma sum_of_squares_nonneg :
  sf_nonneg (Prim2SF (x q * x q + y q * y q + z q * z q + w q * w q)).
Proof.
  rewrite !FloatAxioms.add_spec, !FloatAxioms.mul_spec. unfold SF64add, SF64mul.
  apply is_finite_spec in Hw, Hx, Hy, Hz.
  repeat apply SFadd_nonneg; try exact binary64_prec; try exact binary64_emax;
    apply SFmul_square_nonneg; try exact binary64_prec; try exact binary64_emax;
    assumption.
Qed.

Lemma sum_of_squares_at_least (L : Z) :
  SpecFloat.emin prec emax < L ->
  sf_at_least L (Prim2SF (x q * x q)) \/ sf_at_least L (Prim2SF (y q * y q))
  \/ sf_at_least L (Prim2SF (z q * z q)) \/ sf_at_least L (Prim2SF (w q * w q)) ->
  sf_at_least L (Prim2SF (x q * x q + y q * y q + z q * z q + w q * w q)).
Proof.
  intros HL H.
  assert (Hsq : forall c : float,
             PrimFloat.is_finite c = true -> sf_nonneg (Prim2SF (c * c))).
  { intros c Hc. rewrite FloatAxioms.mul_spec. apply is_finite_spec in Hc.
    apply SFmul_square_nonneg;
      [exact binary64_prec | exact binary64_emax | exact Hc]. }
  pose proof (Hsq _ Hw) as Nw. pose proof (Hsq _ Hx) as Nx.
  pose proof (Hsq _ Hy) as Ny. pose proof (Hsq _ Hz) as Nz.
  pose proof (SFadd_at_least_l prec emax binary64_prec binary64_emax L) as Al.
  pose proof (SFadd_at_least_r prec emax binary64_prec binary64_emax L) as Ar.
  pose proof (SFadd_nonneg prec emax binary64_prec binary64_emax) as An.
  rewrite !FloatAxioms.add_spec. unfold SF64add.
  destruct H as [H | [H | [H | H]]]; auto 10.
Qed.

Lemma sqrt_sum_of_squares_nonneg :
  sf_nonneg
    (Prim2SF (PrimFloat.sqrt (x q * x q + y q * y q + z q * z q + w q * w q))).
Proof.
  rewrite FloatAxioms.sqrt_spec.
  apply SFsqrt_nonneg;
    [exact binary64_prec | exact binary64_emax | exact sum_of_squares_nonneg].
Qed.

(** A finite field divided by the magnitude is finite.  Either the field is
    so small that the quotient cannot overflow whatever the magnitude, or
    its square does not underflow, and then the computed magnitude is at
    least as large, in binary order, as the field. *)
Lemma field_over_magnitude_finite (c : float) :
  PrimFloat.is_finite c = true ->
  (forall L : Z,
      SpecFloat.emin prec emax < L ->
      sf_at_least L (Prim2SF (c * c)) ->
      sf_at_least L (Prim2SF (x q * x q + y q * y q + z q * z q + w q * w q))) ->
  PrimFloat.eqb
    (PrimFloat.sqrt (x q * x q + y q * y q + z q * z q + w q * w q)) 0 = false ->
  PrimFloat.is_finite
    (c / PrimFloat.sqrt (x q * x q + y q * y q + z q * z q + w q * w q)) = true.
Proof.
  set (mag := PrimFloat.sqrt (x q * x q + y q * y q + z q * z q + w q * w q)).
  intros Hc Hsum Hmag. apply is_finite_spec. apply is_finite_spec in Hc.
  rewrite FloatAxioms.div_spec. unfold SF64div.
  rewrite FloatAxioms.eqb_spec in Hmag.
  change (Prim2SF 0) with (S754_zero false) in Hmag.
  apply (SFdiv_finite prec emax binary64_prec binary64_emax);
    [exact Hc | exact sqrt_sum_of_squares_nonneg | exact Hmag |].
  intros s1 m1 e1 s2 m2 e2 Ec Em.
  pose proof (Prim2SF_valid mag) as Hv. rewrite Em in Hv.
  apply (valid_binary_order prec emax) in Hv.
  change (SpecFloat.emin prec emax) with (-1074) in *.
  change emax with 1024.
  destruct (Z_lt_le_dec (-1074) (2 * (Zdigits2 (Z.pos m1) + e1) - 1)) as [Hbig | Hsmall];
    [| lia].
  assert (Hsq : sf_at_least (2 * (Zdigits2 (Z.pos m1) + e1) - 1) (Prim2SF (c * c))).
  { rewrite FloatAxioms.mul_spec, Ec.
    apply (SFmul_square_at_least prec emax binary64_prec binary64_emax).
    exact Hbig. }
  apply (Hsum _ Hbig) in Hsq.
  apply (SFsqrt_at_least prec emax binary64_prec binary64_emax) in Hsq;
    [| change (SpecFloat.emin prec emax) with (-1074); lia].
  fold SF64sqrt in Hsq. rewrite <- FloatAxioms.sqrt_spec in Hsq. fold mag in Hsq.
  rewrite Em in Hsq. destruct Hsq as [_ Hsq]. lia.
Qed.

End NormalizeDoubles.

End Binary64.

(** ** Claims on the algebra *)

(** C5: for every pair of quaternions [a] and [b], under any arithmetic
    (doubles included), [a.mult(b)] is the Hamilton product with the four
    components given by the formula of the specification; and in exact
    arithmetic rotating by [a.mult(b)] is rotating by [b] first and by [a]
    next. *)
Theorem mult_hamilton_product :
  (forall (T : Type) (N : Number T) (a b : Quat T),
      mult a (IsObject b)
      = mkQuat
          (w b * w a - x b * x a - y b * y a - z b * z a)%js
          (y a * z b - z a * y b + w a * x b + x a * w b)%js
          (z a * x b - x a * z b + w a * y b + y a * w b)%js
          (x a * y b - y a * x b + w a * z b + z a * w b)%js)
  /\ (forall (a b : Quat R) (v : Vec3.t R),
         rotate (mult a (IsObject b)) (IsObject v)
         = rotate a (IsObject (rotate b (IsObject v)))).
Proof.
  split.
  - intros T N a b. reflexivity.
  - exact rotate_compose.
Qed.

(** C4: for every unit-length quaternion [q], [inverse(q)] is
    [conjugate(q) = (w, -x, -y, -z)] and, in exact arithmetic,
    [q.mult(q.inverse())] is the identity quaternion (1,0,0,0). *)
Theorem mult_inverse_identity (q : Quat R) :
  unit_length q ->
  inverse q = conjugate q
  /\ conjugate q = mkQuat (w q) (- x q) (- y q) (- z q)
  /\ mult q (IsObject (inverse q)) = identity.
Proof.
  intros Hu. repeat split.
  unfold inverse. rewrite mult_conjugate, Hu. reflexivity.
Qed.

Lemma mult_inverse_identity_witness :
  let q := mkQuat (3 / 5) 0 (4 / 5) 0 in
  unit_length q /\ mult q (IsObject (inverse q)) = identity.
Proof.
  assert (Hu : unit_length (mkQuat (3 / 5) 0 (4 / 5) 0))
    by (unfold unit_length, norm2; simpl; lra).
  split; [exact Hu | apply (mult_inverse_identity _ Hu)].
Defined.

(** C6: for every unit-length quaternion [q] and every vector [v], the
    magnitude of [rotate(q, v)], the vector part of
    [q.mult((0, v.x, v.y, v.z)).mult(q.inverse())], equals the magnitude of
    [v] in exact arithmetic. *)
Theorem rotate_preserves_magnitude (q : Quat R) (v : Vec3.t R) :
  unit_length q ->
  (let r := mult (mult q (IsObject (mkQuat 0 (Vec3.x v) (Vec3.y v) (Vec3.z v))))
                 (IsObject (inverse q)) in
   rotate q (IsObject v) = Vec3.mk (x r) (y r) (z r))
  /\ magnitude (rotate q (IsObject v)) = magnitude v.
Proof.
  intros Hu. split; [reflexivity |].
  unfold magnitude. rewrite (rotate_scales_by_norm2 q v), Hu.
  f_equal. ring.
Qed.

Lemma rotate_preserves_magnitude_witness :
  let q := mkQuat (3 / 5) 0 (4 / 5) 0 in
  let v := Vec3.mk 1 2 3 in
  unit_length q /\ magnitude (rotate q (IsObject v)) = magnitude v.
Proof.
  assert (Hu : unit_length (mkQuat (3 / 5) 0 (4 / 5) 0))
    by (unfold unit_length, norm2; simpl; lra).
  split; [exact Hu | apply (rotate_preserves_magnitude _ (Vec3.mk 1 2 3) Hu)].
Defined.

(** ** Claims on normalization *)




(** C9 (amended): in exact arithmetic [normalize] is idempotent: for every
    quaternion [q] with real fields, [normalize(normalize(q))] equals
    [normalize(q)] field by field. *)
Theorem normalize_idempotent_exact (q : Quat R) :
  normalize (normalize q) = normalize q.
Proof. apply normalize_of_unit, normalize_unit_length. Qed.

(** C9 (as stated, refuted on doubles): at [q = (1, 2, 3, 4)],
    [normalize(q)] is (0.18257418583505536, 0.36514837167011072,
    0.54772255750516607, 0.73029674334022143) and [normalize(normalize(q))] is
    (0.18257418583505539, 0.36514837167011077, 0.54772255750516619,
    0.73029674334022154): the second normalization moves every field by one
    unit in the last place, so the two are not equal field by field. *)
Lemma normalize_idempotent_fails_on_doubles :
  let q := (mkQuat 1 2 3 4 : Quat float)%float in
  normalize q
  = (mkQuat 0x1.75e9746a0b098p-3 0x1.75e9746a0b098p-2
            0x1.186f174f88472p-1 0x1.75e9746a0b098p-1)%float
  /\ normalize (normalize q)
     = (mkQuat 0x1.75e9746a0b099p-3 0x1.75e9746a0b099p-2
               0x1.186f174f88473p-1 0x1.75e9746a0b099p-1)%float
  /\ normalize (normalize q) <> normalize q
  /\ equals (normalize (normalize q)) (normalize q) None = false.
Proof.
  cbv zeta. repeat split; try (vm_compute; reflexivity).
  intros E.
  assert (E' := f_equal (fun p => PrimFloat.eqb (w p) 0x1.75e9746a0b098p-3%float) E).
  vm_compute in E'. discriminate E'.
Qed.

(** ** Claims on the constructor *)

(** C10: with any argument count other than exactly 1 or exactly 4 the
    constructor ignores the supplied arguments, whatever they are, and
    produces the identity quaternion (1,0,0,0). *)
Theorem Quaternion_other_arity {T : Type} `{Number T} (arguments : list (value T)) :
  List.length arguments <> 1%nat -> List.length arguments <> 4%nat ->
  Quaternion arguments = Some (as_values identity).
Proof.
  intros H1 H4.
  destruct arguments as [|a0 [|a1 [|a2 [|a3 [|a4 rest]]]]];
    simpl in H1, H4; try congruence; reflexivity.
Qed.

Lemma Quaternion_other_arity_witness :
  Quaternion [VNumber 2; VNumber 3; VNumber 5]%float
  = Some (as_values (mkQuat 1 0 0 0))%float.
Proof.
  refine (Quaternion_other_arity (T := float) _ _ _); simpl; discriminate.
Defined.

(** ** The rotation matrix *)

Lemma rotation_matrix_rotates (q : Quat R) (v : Vec3.t R) :
  unit_length q -> apply (rotation_matrix q) v = rotate q (IsObject v).
Proof.
  unfold unit_length, norm2. destruct q as [qw qx qy qz], v as [vx vy vz].
  simpl; intros Hu.
  unfold apply, rotation_matrix. quat_R.
  replace (1 - 2 * (qy * qy) - 2 * (qz * qz))
    with (qw * qw + qx * qx - qy * qy - qz * qz) by lra.
  replace (1 - 2 * (qx * qx) - 2 * (qz * qz))
    with (qw * qw - qx * qx + qy * qy - qz * qz) by lra.
  replace (1 - 2 * (qx * qx) - 2 * (qy * qy))
    with (qw * qw - qx * qx - qy * qy + qz * qz) by lra.
  f_equal; ring.
Qed.

Lemma matrix_col_major_entries (q : Quat R) (i j : nat) :
  (i < 3)%nat -> (j < 3)%nat ->
  entry_col_major (matrix q) i j = rotation_matrix q i j.
Proof.
  intros Hi Hj.
  destruct i as [|[|[|i]]]; [| | | lia];
    (destruct j as [|[|[|j]]]; [| | | lia]);
    unfold entry_col_major, rotation_matrix; quat_R; simpl; ring.
Qed.

Lemma inverse_unit_length (q : Quat R) : unit_length q -> unit_length (inverse q).
Proof.
  unfold unit_length, norm2, inverse, conjugate; simpl; js_R. intros Hu.
  rewrite <- Hu. ring.
Qed.

Lemma matrix_row_major_entries (q : Quat R) (i j : nat) :
  entry_row_major (matrix q) i j = entry_col_major (matrix q) j i.
Proof. reflexivity. Qed.

(** C1 (as stated, refuted): at the unit quaternion
    [q = (1/2, 1/2, 1/2, 1/2)], which rotates (1,0,0) to (0,1,0), the
    sequence returned by [matrix(q)] is [0,1,0, 0,0,1, 1,0,0], on doubles as
    in exact arithmetic.  Read in row-major order its entry (0,1) is 1 where
    the standard formula gives [2xy - 2zw = 0], and the matrix sends (1,0,0)
    to (0,0,1), not to [rotate(q, (1,0,0))]. *)
Lemma matrix_not_row_major :
  let q := mkQuat (1 / 2) (1 / 2) (1 / 2) (1 / 2) in
  let e1 := Vec3.mk 1 0 0 in
  unit_length q
  /\ matrix (mkQuat 0.5 0.5 0.5 0.5 : Quat float)%float
     = (Mat33.mk [0; 1; 0; 0; 0; 1; 1; 0; 0])%float
  /\ rotate (mkQuat 0.5 0.5 0.5 0.5 : Quat float)%float
            (IsObject (Vec3.mk 1 0 0))%float
     = (Vec3.mk 0 1 0)%float
  /\ rotate q (IsObject e1) = Vec3.mk 0 1 0
  /\ apply (entry_row_major (matrix q)) e1 = Vec3.mk 0 0 1
  /\ entry_row_major (matrix q) 0 1 <> rotation_matrix q 0 1
  /\ apply (entry_row_major (matrix q)) e1 <> rotate q (IsObject e1).
Proof.
  cbv zeta.
  assert (Hrot : rotate (mkQuat (1 / 2) (1 / 2) (1 / 2) (1 / 2))
                        (IsObject (Vec3.mk 1 0 0)) = Vec3.mk 0 1 0)
    by (quat_R; f_equal; field).
  assert (Happ : apply (entry_row_major (matrix (mkQuat (1 / 2) (1 / 2) (1 / 2) (1 / 2))))
                       (Vec3.mk 1 0 0) = Vec3.mk 0 0 1)
    by (unfold apply, entry_row_major; quat_R; simpl; f_equal; field).
  split; [unfold unit_length, norm2; simpl; lra |].
  split; [vm_compute; reflexivity |].
  split; [vm_compute; reflexivity |].
  split; [exact Hrot |].
  split; [exact Happ |].
  split.
  - unfold entry_row_major, rotation_matrix, matrix; simpl; js_R. lra.
  - rewrite Hrot, Happ. intros E.
    assert (E' := f_equal Vec3.y E). simpl in E'. lra.
Qed.

(** C1 (amended): for every unit quaternion [q], [matrix(q)] is the flat
    sequence of nine values holding the rotation matrix equivalent to [q],
    given by the standard quaternion-to-matrix formula, in column-major
    order: read that way it sends every column vector [v] to [rotate(q, v)].
    Read in row-major order it is the transpose: it acts as [rotate(q, v)]
    on row vectors multiplied from the left, and as the rotation of
    [q.inverse()] on column vectors.  [identity().matrix()] is
    [1,0,0, 0,1,0, 0,0,1], on doubles too. *)
Theorem matrix_column_major_rotation (q : Quat R) :
  unit_length q ->
  List.length (Mat33.data (matrix q)) = 9%nat
  /\ (forall i j : nat, (i < 3)%nat -> (j < 3)%nat ->
        entry_col_major (matrix q) i j = rotation_matrix q i j)
  /\ (forall v : Vec3.t R,
        apply (entry_col_major (matrix q)) v = rotate q (IsObject v))
  /\ (forall v : Vec3.t R,
        apply_row_vector (entry_row_major (matrix q)) v = rotate q (IsObject v))
  /\ (forall v : Vec3.t R,
        apply (entry_row_major (matrix q)) v = rotate (inverse q) (IsObject v))
  /\ matrix (identity : Quat R) = Mat33.mk [1; 0; 0; 0; 1; 0; 0; 0; 1]
  /\ matrix (identity : Quat float) = (Mat33.mk [1; 0; 0; 0; 1; 0; 0; 0; 1])%float.
Proof.
  intros Hu.
  assert (Hcol : forall p : Quat R, unit_length p -> forall v : Vec3.t R,
             apply (entry_col_major (matrix p)) v = rotate p (IsObject v)).
  { intros p Hp v. rewrite <- (rotation_matrix_rotates p v Hp).
    unfold apply. f_equal;
      rewrite !matrix_col_major_entries by (repeat constructor); reflexivity. }
  split; [reflexivity |].
  split; [apply matrix_col_major_entries |].
  split; [apply Hcol, Hu |].
  split.
  { intros v. rewrite <- (Hcol q Hu v).
    destruct q as [qw qx qy qz], v as [vx vy vz].
    unfold apply, apply_row_vector, entry_row_major, entry_col_major;
      quat_R; simpl.
    f_equal; ring. }
  split.
  - intros v. rewrite <- (Hcol _ (inverse_unit_length q Hu)).
    destruct q as [qw qx qy qz], v as [vx vy vz].
    unfold apply, entry_row_major, entry_col_major; quat_R; simpl.
    f_equal; ring.
  - split; [| vm_compute; reflexivity].
    quat_R. f_equal.
    repeat match goal with
      | |- _ :: _ = _ :: _ => apply f_equal2; [ring |]
      end.
    reflexivity.
Qed.

Lemma matrix_column_major_rotation_witness :
  let q := mkQuat (1 / 2) (1 / 2) (1 / 2) (1 / 2) in
  unit_length q
  /\ apply (entry_col_major (matrix q)) (Vec3.mk 1 0 0)
     = rotate q (IsObject (Vec3.mk 1 0 0)).
Proof.
  assert (Hu : unit_length (mkQuat (1 / 2) (1 / 2) (1 / 2) (1 / 2)))
    by (unfold unit_length, norm2; simpl; lra).
  split; [exact Hu |].
  apply (matrix_column_major_rotation _ Hu).
Defined.

(** ** Spherical interpolation in exact arithmetic *)

(** The three branches of [slerp]. *)
Lemma slerp_degenerate (from to : Quat R) (t : R) :
  1 <= Rabs (dot from to) -> slerp from to t = from.
Proof.
  intros Hc. unfold slerp; js_R. fold (dot from to).
  rewrite Rleb_true by exact Hc. destruct from; reflexivity.
Qed.

Lemma slerp_average (from to : Quat R) (t : R) :
  Rabs (dot from to) < 1 ->
  sqrt (1 - dot from to * dot from to) < 1 / 1000 ->
  slerp from to t
  = mkQuat (w from * (1 / 2) + w to * (1 / 2)) (x from * (1 / 2) + x to * (1 / 2))
           (y from * (1 / 2) + y to * (1 / 2)) (z from * (1 / 2) + z to * (1 / 2)).
Proof.
  intros Hc Hs. unfold slerp; js_R. fold (dot from to).
  rewrite Rleb_false by lra.
  rewrite Rltb_true; [reflexivity |].
  rewrite Rabs_pos_eq by apply sqrt_pos. exact Hs.
Qed.

Lemma slerp_weighted (from to : Quat R) (t : R) :
  1 / 1000 <= sqrt (1 - dot from to * dot from to) ->
  let halfTheta := acos (dot from to) in
  let sinHalfTheta := sqrt (1 - dot from to * dot from to) in
  let ratioA := sin ((1 - t) * halfTheta) / sinHalfTheta in
  let ratioB := sin (t * halfTheta) / sinHalfTheta in
  Rabs (dot from to) < 1
  /\ slerp from to t
     = mkQuat (w from * ratioA + w to * ratioB) (x from * ratioA + x to * ratioB)
              (y from * ratioA + y to * ratioB) (z from * ratioA + z to * ratioB).
Proof.
  intros Hs halfTheta sinHalfTheta ratioA ratioB.
  assert (Hc : Rabs (dot from to) < 1).
  { destruct (Rlt_dec (Rabs (dot from to)) 1) as [Hlt | Hge]; [exact Hlt |].
    exfalso. assert (Hneg : 1 - dot from to * dot from to <= 0).
    { unfold Rabs in Hge. destruct (Rcase_abs (dot from to)); nra. }
    rewrite (sqrt_neg_0 _ Hneg) in Hs. lra. }
  split; [exact Hc |].
  unfold slerp; js_R. fold (dot from to).
  rewrite Rleb_false by lra.
  rewrite Rltb_false; [reflexivity |].
  rewrite Rabs_pos_eq by apply sqrt_pos. lra.
Qed.

(** C2 (as stated, refuted): [a = (1,0,0,0)] and
    [b = (-99999999/100000001, 20000/100000001, 0, 0)] are unit quaternions,
    not equal and not antipodal, with [sinHalfTheta = 20000/100000001 < 0.001].
    [slerp] returns their average for every [t]; at [t = 0] it is not within
    0.5 of [a] and at [t = 1] not within 0.5 of [b]. *)
Lemma slerp_boundary_fails_near_antipodal :
  let a := mkQuat 1 0 0 0 in
  let b := mkQuat (- 99999999 / 100000001) (20000 / 100000001) 0 0 in
  let m := mkQuat (1 / 100000001) (10000 / 100000001) 0 0 in
  unit_length a /\ unit_length b /\ a <> b /\ ~ antipodal a b
  /\ slerp a b 0 = m /\ slerp a b 1 = m
  /\ equals (slerp a b 0) a (Some (1 / 2)) = false
  /\ equals (slerp a b 1) b (Some (1 / 2)) = false.
Proof.
  cbv zeta.
  set (a := mkQuat 1 0 0 0).
  set (b := mkQuat (- 99999999 / 100000001) (20000 / 100000001) 0 0).
  assert (Hdot : dot a b = - 99999999 / 100000001)
    by (unfold dot, a, b; simpl; field).
  assert (Hsin : sqrt (1 - dot a b * dot a b) = 20000 / 100000001).
  { rewrite Hdot. apply sqrt_lem_1; [lra | lra | field]. }
  assert (Hslerp : forall t, slerp a b t
                   = mkQuat (1 / 100000001) (10000 / 100000001) 0 0).
  { intros t. rewrite slerp_average.
    - unfold a, b; simpl. f_equal; field.
    - rewrite Hdot. apply Rabs_def1; lra.
    - rewrite Hsin. lra. }
  split; [unfold unit_length, norm2, a; simpl; lra |].
  split; [unfold unit_length, norm2, b; simpl; field |].
  split; [intros E; assert (E' := f_equal w E); simpl in E'; lra |].
  split; [unfold antipodal; intros E; assert (E' := f_equal x E);
          simpl in E'; lra |].
  split; [apply Hslerp |].
  split; [apply Hslerp |].
  rewrite !Hslerp. unfold equals, a, b; simpl; js_R.
  split.
  - rewrite (Reqb_false (1 / 100000001) 1) by lra.
    rewrite (Rleb_false (Rabs (1 / 100000001 - 1)) (1 / 2)).
    + rewrite !andb_false_r. reflexivity.
    + rewrite Rabs_left by lra. lra.
  - rewrite (Reqb_false (1 / 100000001) (- 99999999 / 100000001)) by lra.
    rewrite (Rleb_false (Rabs (1 / 100000001 - - 99999999 / 100000001)) (1 / 2)).
    + rewrite !andb_false_r. reflexivity.
    + rewrite Rabs_right by lra. lra.
Qed.

(** C2 (amended): for every two unit quaternions [a] and [b] whose
    [sinHalfTheta = sqrt(1 - (a.b)^2)] is at least 0.001 (such [a] and [b]
    are neither equal nor antipodal), [slerp(a, b, 0)] equals [a] and
    [slerp(a, b, 1)] equals [b], in exact arithmetic. *)
Theorem slerp_boundary (a b : Quat R) :
  unit_length a -> unit_length b ->
  1 / 1000 <= sqrt (1 - dot a b * dot a b) ->
  a <> b /\ ~ antipodal a b /\ slerp a b 0 = a /\ slerp a b 1 = b.
Proof.
  intros Ha Hb Hs.
  destruct (slerp_weighted a b 0 Hs) as [Hc H0].
  destruct (slerp_weighted a b 1 Hs) as [_ H1].
  assert (Hsin : sin (acos (dot a b)) = sqrt (1 - dot a b * dot a b)).
  { rewrite sin_acos; [reflexivity |]. apply Rabs_def2 in Hc. lra. }
  assert (Hnz : sqrt (1 - dot a b * dot a b) <> 0) by lra.
  split; [| split; [| split]].
  - intros E. subst b.
    replace (dot a a) with 1 in Hs by (symmetry; exact Ha).
    replace (1 - 1 * 1) with 0 in Hs by ring. rewrite sqrt_0 in Hs. lra.
  - intros E. unfold antipodal in E. subst b.
    replace (dot a (mkQuat (- w a) (- x a) (- y a) (- z a))) with (- 1) in Hs
      by (unfold dot; simpl; unfold unit_length, norm2 in Ha; lra).
    replace (1 - - 1 * - 1) with 0 in Hs by ring. rewrite sqrt_0 in Hs. lra.
  - rewrite H0.
    replace ((1 - 0) * acos (dot a b)) with (acos (dot a b)) by ring.
    replace (0 * acos (dot a b)) with 0 by ring.
    rewrite sin_0, Hsin. destruct a; simpl. f_equal; field; exact Hnz.
  - rewrite H1.
    replace ((1 - 1) * acos (dot a b)) with 0 by ring.
    replace (1 * acos (dot a b)) with (acos (dot a b)) by ring.
    rewrite sin_0, Hsin. destruct b; simpl. f_equal; field; exact Hnz.
Qed.

Lemma slerp_boundary_witness :
  let a := mkQuat 1 0 0 0 in
  let b := mkQuat 0 1 0 0 in
  slerp a b 0 = a /\ slerp a b 1 = b.
Proof.
  assert (Ha : unit_length (mkQuat 1 0 0 0))
    by (unfold unit_length, norm2; simpl; lra).
  assert (Hb : unit_length (mkQuat 0 1 0 0))
    by (unfold unit_length, norm2; simpl; lra).
  assert (Hs : 1 / 1000 <= sqrt (1 - dot (mkQuat 1 0 0 0) (mkQuat 0 1 0 0)
                                     * dot (mkQuat 1 0 0 0) (mkQuat 0 1 0 0))).
  { unfold dot; simpl.
    replace (1 - (1 * 0 + 0 * 1 + 0 * 0 + 0 * 0) * (1 * 0 + 0 * 1 + 0 * 0 + 0 * 0))
      with 1 by ring.
    rewrite sqrt_1. lra. }
  apply (slerp_boundary _ _ Ha Hb Hs).
Defined.

(** ** Axis-angle construction in exact arithmetic *)

Lemma Rmod_positive (a b : R) :
  0 < a -> 0 < b ->
  0 <= Rmod a b < b /\ exists k : Z, a = Rmod a b + b * IZR k.
Proof.
  intros Ha Hb. unfold Rmod, Rtrunc.
  assert (Hq : 0 < a / b) by (apply Rdiv_lt_0_compat; assumption).
  destruct (Rle_dec 0 (a / b)) as [_ | Hn]; [| lra].
  pose proof (Zfloor_bound (a / b)) as [Hlo Hhi].
  assert (Ea : a = b * (a / b)) by (field; lra).
  split; [| exists (Zfloor (a / b)); ring].
  set (k := IZR (Zfloor (a / b))) in *. set (q := a / b) in *.
  rewrite Ea. split; nra.
Qed.

Lemma Rmod_nonpositive (a b : R) :
  a <= 0 -> b < 0 ->
  b < Rmod a b <= 0 /\ exists k : Z, a = Rmod a b + b * IZR k.
Proof.
  intros Ha Hb. unfold Rmod, Rtrunc.
  assert (Ea : a = b * (a / b)) by (field; lra).
  assert (Hq : 0 <= a / b).
  { destruct (Rle_dec 0 (a / b)) as [Hle | Hn]; [exact Hle |]. nra. }
  destruct (Rle_dec 0 (a / b)) as [_ | Hn]; [| lra].
  pose proof (Zfloor_bound (a / b)) as [Hlo Hhi].
  split; [| exists (Zfloor (a / b)); ring].
  set (k := IZR (Zfloor (a / b))) in *. set (q := a / b) in *.
  rewrite Ea. split; nra.
Qed.

Lemma Vec3_normalize_nonzero (v : Vec3.t R) :
  v <> Vec3.mk 0 0 0 ->
  magnitude v <> 0
  /\ Vec3.normalize v
     = Vec3.mk (Vec3.x v / magnitude v) (Vec3.y v / magnitude v)
               (Vec3.z v / magnitude v)
  /\ magnitude (Vec3.normalize v) = 1.
Proof.
  intros Hv. destruct v as [vx vy vz].
  assert (Hpos : 0 < vx * vx + vy * vy + vz * vz).
  { destruct (Req_dec_T vx 0) as [Ex | Nx]; [| nra].
    destruct (Req_dec_T vy 0) as [Ey | Ny]; [| nra].
    destruct (Req_dec_T vz 0) as [Ez | Nz]; [| nra].
    exfalso. apply Hv. subst. reflexivity. }
  assert (Hm : 0 < magnitude (Vec3.mk vx vy vz))
    by (unfold magnitude; simpl; apply sqrt_lt_R0; exact Hpos).
  assert (Hn : Vec3.normalize (Vec3.mk vx vy vz)
               = Vec3.mk (vx / magnitude (Vec3.mk vx vy vz))
                         (vy / magnitude (Vec3.mk vx vy vz))
                         (vz / magnitude (Vec3.mk vx vy vz))).
  { unfold Vec3.normalize; simpl; js_R.
    fold (magnitude (Vec3.mk vx vy vz)) in *.
    change (sqrt (vx * vx + vy * vy + vz * vz)) with (magnitude (Vec3.mk vx vy vz)).
    rewrite Reqb_false by lra. reflexivity. }
  split; [lra |]. split; [exact Hn |].
  rewrite Hn. set (m := magnitude (Vec3.mk vx vy vz)) in *.
  assert (Hmm : m * m = vx * vx + vy * vy + vz * vz)
    by (unfold m, magnitude; simpl; apply sqrt_sqrt; lra).
  unfold magnitude at 1; simpl.
  replace (vx / m * (vx / m) + vy / m * (vy / m) + vz / m * (vz / m))
    with ((vx * vx + vy * vy + vz * vz) / (m * m)) by (field; lra).
  rewrite <- Hmm.
  replace (m * m / (m * m)) with 1 by (field; lra).
  apply sqrt_1.
Qed.

(** C8: for every angle and every non-zero axis, [rotationRadians] wraps the
    angle to an [a'] in (-2pi, 2pi) of the sign of the angle (a positive angle
    reduced modulo 2pi, a non-positive one modulo -2pi) that differs from the
    angle by a multiple of 2pi, normalizes the axis to the unit vector [n],
    and returns the normalization of
    [(cos(a'/2), n.x*sin(a'/2), n.y*sin(a'/2), n.z*sin(a'/2))];
    [rotationDegrees(angle, axis)] is [rotationRadians(angle*pi/180, axis)]. *)
Theorem rotationRadians_wraps_and_normalizes (angle : R) (axis : Vec3.t R) :
  axis <> Vec3.mk 0 0 0 ->
  exists a' : R,
    - (2 * PI) < a' < 2 * PI
    /\ (0 < angle -> 0 <= a' /\ a' = Rmod angle (2 * PI))
    /\ (angle <= 0 -> a' <= 0 /\ a' = Rmod angle (- 2 * PI))
    /\ (exists k : Z, angle = a' + 2 * PI * IZR k)
    /\ (let n := Vec3.normalize axis in
        magnitude n = 1
        /\ n = Vec3.mk (Vec3.x axis / magnitude axis) (Vec3.y axis / magnitude axis)
                       (Vec3.z axis / magnitude axis)
        /\ rotationRadians angle axis
           = normalize (mkQuat (cos (a' / 2)) (Vec3.x n * sin (a' / 2))
                               (Vec3.y n * sin (a' / 2)) (Vec3.z n * sin (a' / 2))))
    /\ rotationDegrees angle axis = rotationRadians (angle * PI / 180) axis.
Proof.
  intros Haxis.
  destruct (Vec3_normalize_nonzero axis Haxis) as (_ & Hn & Hunit).
  pose proof PI_RGT_0 as Hpi.
  assert (Hdeg : rotationDegrees angle axis = rotationRadians (angle * PI / 180) axis).
  { unfold rotationDegrees; js_R. f_equal. field. }
  destruct (Rlt_dec 0 angle) as [Hpos | Hnpos].
  - destruct (Rmod_positive angle (2 * PI) Hpos ltac:(lra)) as [[Hlo Hhi] [k Hk]].
    exists (Rmod angle (2 * PI)).
    split; [lra |]. split; [intros _; split; [exact Hlo | reflexivity] |].
    split; [intros Hle; lra |].
    split; [exists k; exact Hk |].
    split; [| exact Hdeg].
    split; [exact Hunit |]. split; [exact Hn |].
    unfold rotationRadians; js_R. rewrite Rltb_true by exact Hpos. reflexivity.
  - destruct (Rmod_nonpositive angle (- 2 * PI) ltac:(lra) ltac:(lra))
      as [[Hlo Hhi] [k Hk]].
    exists (Rmod angle (- 2 * PI)).
    split; [lra |]. split; [intros Hlt; lra |].
    split; [intros _; split; [exact Hhi | reflexivity] |].
    split; [exists (- k)%Z; rewrite opp_IZR; rewrite Hk at 1; ring |].
    split; [| exact Hdeg].
    split; [exact Hunit |]. split; [exact Hn |].
    unfold rotationRadians; js_R. rewrite Rltb_false by exact Hnpos. reflexivity.
Qed.

Lemma rotationRadians_wraps_and_normalizes_witness :
  exists a' : R,
    - (2 * PI) < a' < 2 * PI
    /\ rotationRadians 7 (Vec3.mk 0 0 2)
       = normalize (mkQuat (cos (a' / 2))
                           (Vec3.x (Vec3.normalize (Vec3.mk 0 0 2)) * sin (a' / 2))
                           (Vec3.y (Vec3.normalize (Vec3.mk 0 0 2)) * sin (a' / 2))
                           (Vec3.z (Vec3.normalize (Vec3.mk 0 0 2)) * sin (a' / 2))).
Proof.
  assert (Haxis : Vec3.mk 0 0 2 <> Vec3.mk 0 0 0).
  { intros E. assert (E' := f_equal Vec3.z E). simpl in E'. lra. }
  destruct (rotationRadians_wraps_and_normalizes 7 _ Haxis)
    as (a' & Hrange & _ & _ & _ & (_ & _ & Hq) & _).
  exists a'. split; [exact Hrange | exact Hq].
Defined.

(** ** The one-argument constructor *)

Lemma or_zero_exact (e : R) : (if negb (Reqb e 0) then e else 0) = e.
Proof.
  unfold Reqb. destruct (Req_dec_T e 0) as [E | N]; simpl;
    [symmetry; exact E | reflexivity].
Qed.

(** At an array of real numbers every element that is present is taken, and
    the missing ones default one by one. *)
Lemma Quaternion_array_exact (a : list R) :
  Quaternion [VArray (map VNumber a)]
  = Some (as_values (mkQuat (nth 0 a 1) (nth 1 a 0) (nth 2 a 0) (nth 3 a 0))).
Proof.
  rewrite Quaternion_of_array_numbers. unfold of_array; js_R.
  rewrite !or_zero_exact. reflexivity.
Qed.

Lemma js_or_number_exact (n : R) :
  js_or (js_or (VNumber n) VUndefined) (VNumber 0) = VNumber n.
Proof.
  destruct (Req_dec_T n 0) as [E | N].
  - subst n. unfold js_or, truthy; js_R.
    rewrite (Reqb_true 0 0 eq_refl). reflexivity.
  - unfold js_or, truthy; js_R.
    rewrite (Reqb_false n 0 N); simpl. rewrite (Reqb_false n 0 N). reflexivity.
Qed.

(** So it is at a record of real numbers that has no indexed property. *)
Lemma Quaternion_record_exact (ow ox oy oz : option R) :
  Quaternion [record ow ox oy oz]
  = Some (as_values (mkQuat (or_default 1 ow) (or_default 0 ox)
                            (or_default 0 oy) (or_default 0 oz))).
Proof.
  destruct ow as [vw|], ox as [vx|], oy as [vy|], oz as [vz|];
    cbn -[js_or]; change (@n0 R Number_R) with 0;
    rewrite ?js_or_number_exact; reflexivity.
Qed.

Lemma Quaternion_1234_toArray :
  option_map toArray (Quaternion [VArray [VNumber 1; VNumber 2; VNumber 3; VNumber 4]]%float)
  = Some ([VNumber 1; VNumber 2; VNumber 3; VNumber 4])%float.
Proof. vm_compute. reflexivity. Qed.

(** C7 (the code at the inputs where it departs from the claim), on doubles:
    an object whose field [x] is present with value 0 and whose element 1 is
    5 gets [x = 5], the zero field is not honored, whereas a field [w]
    present with value 0 is honored over element 0; in the array
    [[1, NaN, 3, 4]] element 1 is present and [x] is set to 0.0 instead,
    whereas a [NaN] element 0 is taken for [w]. *)
Theorem Quaternion_falsy_field_replaced :
  Quaternion [VObject [(KName "w", VNumber 1); (KName "x", VNumber 0);
                       (KName "y", VNumber 0); (KName "z", VNumber 0);
                       (KIndex 1, VNumber 5)]]%float
  = Some (as_values (mkQuat 1 5 0 0))%float
  /\ Quaternion [VObject [(KName "w", VNumber 0); (KName "x", VNumber 0);
                          (KName "y", VNumber 0); (KName "z", VNumber 0);
                          (KIndex 0, VNumber 5)]]%float
     = Some (as_values (mkQuat 0 0 0 0))%float
  /\ Quaternion [VArray [VNumber 1; VNumber nan; VNumber 3; VNumber 4]]%float
     = Some (as_values (mkQuat 1 0 3 4))%float
  /\ Quaternion [VArray [VNumber nan; VNumber 2; VNumber 3; VNumber 4]]%float
     = Some (as_values (mkQuat nan 2 3 4))%float.
Proof. repeat split; vm_compute; reflexivity. Qed.

(** * Further properties of the code *)

(** ** The constructor and [toArray] *)

Lemma js_or_defined {T : Type} `{Number T} (a b : value T) :
  is_undefined (js_or (js_or a b) (VNumber n0)) = false.
Proof.
  unfold js_or.
  destruct (truthy a) eqn:Ha.
  - rewrite Ha. destruct a; simpl in *; congruence.
  - destruct (truthy b) eqn:Hb; [destruct b; simpl in *; congruence | reflexivity].
Qed.

Lemma js_or_kept_element {T : Type} `{Number T} (e : T) :
  kept_by_or e -> js_or (js_or VUndefined (VNumber e)) (VNumber n0) = VNumber e.
Proof.
  intros [Ht | ->]; unfold js_or; simpl.
  - rewrite ?Ht; simpl; rewrite ?Ht; reflexivity.
  - destruct (ToBoolean n0) eqn:E; simpl; rewrite ?E; reflexivity.
Qed.

Lemma js_or_kept_field {T : Type} `{Number T} (e : T) :
  kept_by_or e -> js_or (js_or (VNumber e) VUndefined) (VNumber n0) = VNumber e.
Proof.
  intros [Ht | ->]; unfold js_or; simpl.
  - rewrite ?Ht; simpl; rewrite ?Ht; reflexivity.
  - destruct (ToBoolean n0) eqn:E; simpl; rewrite ?E; reflexivity.
Qed.




(** X3: a single argument that has none of the properties [w], [x], [y],
    [z], [0], [1], [2], [3] (a plain number, an empty array, an empty
    object) is silently ignored: the result is the identity (1,0,0,0). *)
Theorem Quaternion_without_properties {T : Type} `{Number T} (argument : value T) :
  without_properties argument ->
  Quaternion [argument] = Some (as_values identity).
Proof.
  intros Hno. unfold Quaternion.
  rewrite !Hno by (simpl; tauto). reflexivity.
Qed.

Lemma Quaternion_without_properties_witness :
  Quaternion [VNumber 5%float] = Some (as_values identity)
  /\ Quaternion [VArray (T := float) []] = Some (as_values identity).
Proof.
  split; apply Quaternion_without_properties; intros k Hk.
  - reflexivity.
  - simpl in Hk. repeat destruct Hk as [<- | Hk]; try reflexivity. contradiction.
Defined.

(** X4: round trip.  For a quaternion whose [x], [y], [z] are numbers that
    [||] keeps (truthy, or the literal zero), building a quaternion from
    [q.toArray()] gives [q] back, and so does copying [q] itself through the
    one-argument constructor.  ([w] is kept whatever it is.) *)
Theorem Quaternion_toArray_round_trip {T : Type} `{Number T} (q : Quat T) :
  kept_by_or (x q) -> kept_by_or (y q) -> kept_by_or (z q) ->
  Quaternion [VArray (map VNumber (toArray q))] = Some (as_values q)
  /\ Quaternion [record (Some (w q)) (Some (x q)) (Some (y q)) (Some (z q))]
     = Some (as_values q).
Proof.
  intros Hx Hy Hz. destruct q as [qw qx qy qz]; simpl in *.
  split; cbn -[js_or];
    rewrite ?js_or_kept_element, ?js_or_kept_field by assumption;
    reflexivity.
Qed.

Lemma Quaternion_toArray_round_trip_witness :
  let q := (mkQuat nan 2 0 (-4) : Quat float)%float in
  Quaternion [VArray (map VNumber (toArray q))] = Some (as_values q).
Proof.
  cbv zeta.
  refine (proj1 (Quaternion_toArray_round_trip (T := float)
                   (mkQuat nan 2 0 (-4))%float _ _ _)).
  - left. reflexivity.
  - right. reflexivity.
  - left. reflexivity.
Defined.

(** ** [equals] *)

Lemma field_match_iff (a b eps : R) :
  Reqb a b || Rleb (Rabs (a - b)) eps = true <-> a = b \/ Rabs (a - b) <= eps.
Proof.
  unfold Reqb, Rleb.
  destruct (Req_dec_T a b), (Rle_dec (Rabs (a - b)) eps); simpl;
    intuition congruence.
Qed.

Lemma equals_iff (a b : Quat R) (epsilon : option R) :
  equals a b epsilon = true <->
  let eps := match epsilon with None => 0 | Some e => e end in
  (x a = x b \/ Rabs (x a - x b) <= eps) /\ (y a = y b \/ Rabs (y a - y b) <= eps)
  /\ (z a = z b \/ Rabs (z a - z b) <= eps) /\ (w a = w b \/ Rabs (w a - w b) <= eps).
Proof.
  unfold equals; js_R. rewrite !andb_true_iff, !field_match_iff.
  destruct epsilon; simpl; tauto.
Qed.

Lemma Rabs_diff_le_0 (a b eps : R) : eps <= 0 -> Rabs (a - b) <= eps -> a = b.
Proof.
  intros He Hd. unfold Rabs in Hd. destruct (Rcase_abs (a - b)); lra.
Qed.

Lemma Rabs_diff_refl (a b eps : R) : 0 <= eps -> a = b -> Rabs (a - b) <= eps.
Proof.
  intros He ->. unfold Rminus. rewrite Rplus_opp_r, Rabs_R0. exact He.
Qed.

(** X5: in exact arithmetic, [equals] without an epsilon, or with an epsilon
    that is zero or negative, is equality of the four fields. *)
Theorem equals_exact (a b : Quat R) (eps : R) :
  eps <= 0 ->
  (equals a b None = true <-> a = b)
  /\ (equals a b (Some eps) = true <-> a = b).
Proof.
  intros He. rewrite !equals_iff; simpl. split; split.
  - intros (Hx & Hy & Hz & Hw).
    apply quat_eq;
      match goal with
      | H : ?f a = ?f b \/ _ |- ?f a = ?f b =>
          destruct H as [E | E];
          [exact E | exact (Rabs_diff_le_0 _ _ 0 (Rle_refl 0) E)]
      end.
  - intros ->. repeat split; left; reflexivity.
  - intros (Hx & Hy & Hz & Hw).
    apply quat_eq;
      match goal with
      | H : ?f a = ?f b \/ _ |- ?f a = ?f b =>
          destruct H as [E | E]; [exact E | exact (Rabs_diff_le_0 _ _ eps He E)]
      end.
  - intros ->. repeat split; left; reflexivity.
Qed.

Lemma equals_exact_witness :
  equals (mkQuat 1 2 3 4) (mkQuat 1 2 3 4) (Some (- 1)) = true.
Proof.
  apply (proj2 (equals_exact (mkQuat 1 2 3 4) (mkQuat 1 2 3 4) (- 1) ltac:(lra))).
  reflexivity.
Defined.

Lemma equals_within_iff (a b : Quat R) (eps : R) :
  0 <= eps -> (equals a b (Some eps) = true <-> within eps a b).
Proof.
  intros He. rewrite equals_iff; simpl. unfold within. split.
  - intros (Hx & Hy & Hz & Hw).
    repeat split;
      match goal with
      | H : ?f a = ?f b \/ _ |- Rabs (?f a - ?f b) <= _ =>
          destruct H as [E | E]; [exact (Rabs_diff_refl _ _ eps He E) | exact E]
      end.
  - intros (Hw & Hx & Hy & Hz). repeat split; right; assumption.
Qed.

(** X6: in exact arithmetic and for an epsilon that is not negative,
    [equals] holds exactly when every field of one quaternion is within
    epsilon of the same field of the other; it is symmetric in its two
    quaternions and holds of a quaternion and itself. *)
Theorem equals_within (a b : Quat R) (eps : R) :
  0 <= eps ->
  (equals a b (Some eps) = true <-> within eps a b)
  /\ equals a b (Some eps) = equals b a (Some eps)
  /\ equals a a (Some eps) = true.
Proof.
  intros He.
  assert (Hiff : forall p q : Quat R,
             equals p q (Some eps) = true <-> within eps p q)
    by (intros p q; apply equals_within_iff; exact He).
  assert (Hsym : forall p q : Quat R, within eps p q -> within eps q p).
  { unfold within. intros p q (Hw & Hx & Hy & Hz).
    repeat split; rewrite Rabs_minus_sym; assumption. }
  split; [apply Hiff |]. split.
  - destruct (equals a b (Some eps)) eqn:Eab, (equals b a (Some eps)) eqn:Eba;
      try reflexivity.
    + apply Hiff, Hsym, Hiff in Eab. congruence.
    + apply Hiff, Hsym, Hiff in Eba. congruence.
  - apply Hiff. unfold within.
    repeat split; apply Rabs_diff_refl; auto.
Qed.

Lemma equals_within_witness :
  equals (mkQuat 1 0 0 0) (mkQuat (10001 / 10000) 0 0 0) (Some (1 / 1000)) = true.
Proof.
  apply (proj1 (equals_within (mkQuat 1 0 0 0) (mkQuat (10001 / 10000) 0 0 0)
                              (1 / 1000) ltac:(lra))).
  unfold within; simpl.
  repeat split; apply Rabs_le; lra.
Defined.

(** X7: in exact arithmetic the tolerances of [equals] add up: if [a]
    equals [b] within [e1] and [b] equals [c] within [e2], then [a] equals
    [c] within [e1 + e2]. *)
Theorem equals_triangle (a b c : Quat R) (e1 e2 : R) :
  0 <= e1 -> 0 <= e2 ->
  equals a b (Some e1) = true -> equals b c (Some e2) = true ->
  equals a c (Some (e1 + e2)) = true.
Proof.
  intros H1 H2 Hab Hbc.
  apply (equals_within_iff a b e1 H1) in Hab.
  apply (equals_within_iff b c e2 H2) in Hbc.
  apply (equals_within_iff a c (e1 + e2) ltac:(lra)).
  unfold within in *.
  destruct Hab as (Aw & Ax & Ay & Az), Hbc as (Bw & Bx & By & Bz).
  repeat split;
    match goal with
    | |- Rabs (?f a - ?f c) <= _ =>
        replace (f a - f c) with ((f a - f b) + (f b - f c)) by ring;
        eapply Rle_trans; [apply Rabs_triang | lra]
    end.
Qed.

Lemma equals_triangle_witness :
  equals (mkQuat 1 0 0 0) (mkQuat 3 0 0 0) (Some (2 + 1)) = true.
Proof.
  apply (equals_triangle (mkQuat 1 0 0 0) (mkQuat 2 0 0 0) (mkQuat 3 0 0 0) 2 1);
    try lra;
    apply equals_within_iff; try lra;
    unfold within; simpl; repeat split; apply Rabs_le; lra.
Defined.

Lemma float_leb_nan (e : float) : PrimFloat.leb nan e = false.
Proof. rewrite leb_spec. reflexivity. Qed.

(** X8: on doubles [equals] is not reflexive: a quaternion with a [NaN]
    field does not equal itself, whatever epsilon is given. *)
Theorem equals_nan_not_reflexive (q : Quat float) (epsilon : option float) :
  w q = nan \/ x q = nan \/ y q = nan \/ z q = nan ->
  equals q q epsilon = false.
Proof.
  intros Hn. unfold equals.
  cbv beta iota delta [js_eq js_le js_sub Math_abs n0 Number_float].
  assert (Hf : forall e : float,
             PrimFloat.eqb nan nan
             || PrimFloat.leb (PrimFloat.abs (PrimFloat.sub nan nan)) e = false).
  { intros e. change (PrimFloat.abs (PrimFloat.sub nan nan)) with nan.
    rewrite float_leb_nan. reflexivity. }
  destruct Hn as [E | [E | [E | E]]]; rewrite E, Hf;
    rewrite ?andb_false_r; reflexivity.
Qed.

Lemma equals_nan_not_reflexive_witness :
  equals (mkQuat 1 nan 0 0 : Quat float)%float (mkQuat 1 nan 0 0)%float
         (Some infinity) = false.
Proof.
  apply (equals_nan_not_reflexive (mkQuat 1 nan 0 0)%float (Some infinity)).
  right. left. reflexivity.
Defined.

(** ** [conjugate], [inverse] and [mult] *)

Lemma float_opp_involutive (a : float) : PrimFloat.opp (PrimFloat.opp a) = a.
Proof.
  apply Prim2SF_inj. rewrite !opp_spec.
  destruct (Prim2SF a) as [s | s | | s m e]; simpl;
    rewrite ?negb_involutive; reflexivity.
Qed.

(** X9: conjugating twice, or inverting twice, gives the quaternion back,
    in exact arithmetic and bit for bit on doubles. *)
Theorem conjugate_involutive :
  (forall q : Quat R, conjugate (conjugate q) = q /\ inverse (inverse q) = q)
  /\ (forall q : Quat float,
         conjugate (conjugate q) = q /\ inverse (inverse q) = q).
Proof.
  split; intros [qw qx qy qz]; unfold inverse, conjugate; simpl.
  - js_R. rewrite !Ropp_involutive. split; reflexivity.
  - cbv beta iota delta [js_neg Number_float]. rewrite !float_opp_involutive.
    split; reflexivity.
Qed.

(** X10: in exact arithmetic the conjugate (and so the inverse) of a
    product is the product of the conjugates in the opposite order. *)
Theorem conjugate_mult (a b : Quat R) :
  conjugate (mult a (IsObject b)) = mult (conjugate b) (IsObject (conjugate a))
  /\ inverse (mult a (IsObject b)) = mult (inverse b) (IsObject (inverse a)).
Proof.
  destruct a, b. unfold inverse. split; quat_R; f_equal; ring.
Qed.

(** X11: in exact arithmetic [mult] is associative and the identity
    quaternion is its unit on both sides; an empty array as operand stands
    for the identity. *)
Theorem mult_monoid (a b c : Quat R) :
  mult (mult a (IsObject b)) (IsObject c) = mult a (IsObject (mult b (IsObject c)))
  /\ mult identity (IsObject a) = a
  /\ mult a (IsObject identity) = a
  /\ mult a (IsArray []) = a.
Proof.
  assert (Hempty : of_array (T := R) [] = identity).
  { unfold of_array, identity; simpl; js_R. destruct (Reqb 0 0); reflexivity. }
  change (mult a (IsArray [])) with (mult a (IsObject (of_array []))).
  rewrite Hempty. destruct a, b, c. repeat split; quat_R; f_equal; ring.
Qed.

(** X12: in exact arithmetic the squared magnitude of a product is the
    product of the squared magnitudes, so that the product of two unit
    quaternions is a unit quaternion. *)
Theorem mult_norm2 (a b : Quat R) :
  norm2 (mult a (IsObject b)) = norm2 a * norm2 b
  /\ (unit_length a -> unit_length b -> unit_length (mult a (IsObject b))).
Proof.
  assert (Hn : norm2 (mult a (IsObject b)) = norm2 a * norm2 b)
    by (destruct a, b; unfold norm2; quat_R; ring).
  split; [exact Hn |].
  unfold unit_length. intros Ha Hb. rewrite Hn, Ha, Hb. ring.
Qed.

Lemma mult_norm2_witness :
  unit_length (mult (mkQuat (3 / 5) 0 (4 / 5) 0) (IsObject (mkQuat 0 1 0 0))).
Proof.
  apply (proj2 (mult_norm2 (mkQuat (3 / 5) 0 (4 / 5) 0) (mkQuat 0 1 0 0)));
    unfold unit_length, norm2; simpl; lra.
Defined.

(** X13: in exact arithmetic, for every quaternion [q], unit or not,
    [q.mult(q.inverse())] and [q.inverse().mult(q)] are both
    [(w^2 + x^2 + y^2 + z^2, 0, 0, 0)]: [inverse] inverts on either side
    exactly when [q] has unit length. *)
Theorem mult_inverse_both_sides (q : Quat R) :
  mult q (IsObject (inverse q)) = mkQuat (norm2 q) 0 0 0
  /\ mult (inverse q) (IsObject q) = mkQuat (norm2 q) 0 0 0
  /\ (mult (inverse q) (IsObject q) = identity <-> unit_length q)
  /\ (mult q (IsObject (inverse q)) = identity <-> unit_length q).
Proof.
  assert (H1 : mult q (IsObject (inverse q)) = mkQuat (norm2 q) 0 0 0)
    by (destruct q; unfold norm2; quat_R; f_equal; ring).
  assert (H2 : mult (inverse q) (IsObject q) = mkQuat (norm2 q) 0 0 0)
    by (destruct q; unfold norm2; quat_R; f_equal; ring).
  split; [exact H1 |]. split; [exact H2 |].
  rewrite H1, H2. unfold unit_length.
  split; (split; [intros E; exact (f_equal w E) | intros ->; reflexivity]).
Qed.

(** ** [rotate] *)

(** X14: in exact arithmetic, for every quaternion [q], unit or not, the
    scalar part that [rotate] discards is exactly 0 and the magnitude of the
    result is [w^2 + x^2 + y^2 + z^2] times the magnitude of the vector. *)
Theorem rotate_scales_magnitude (q : Quat R) (v : Vec3.t R) :
  w (mult (mult q (IsObject (mkQuat 0 (Vec3.x v) (Vec3.y v) (Vec3.z v))))
          (IsObject (inverse q))) = 0
  /\ magnitude (rotate q (IsObject v)) = norm2 q * magnitude v.
Proof.
  split.
  - destruct q, v. quat_R. ring.
  - unfold magnitude. rewrite (rotate_scales_by_norm2 q v).
    rewrite sqrt_mult_alt by (pose proof (norm2_nonneg q); nra).
    rewrite sqrt_square by apply norm2_nonneg. reflexivity.
Qed.

(** X15: round trip.  In exact arithmetic and for a unit quaternion [q],
    rotating by [q.inverse()] undoes rotating by [q], and the other way
    round. *)
Theorem rotate_inverse_round_trip (q : Quat R) (v : Vec3.t R) :
  unit_length q ->
  rotate (inverse q) (IsObject (rotate q (IsObject v))) = v
  /\ rotate q (IsObject (rotate (inverse q) (IsObject v))) = v.
Proof.
  intros Hu. unfold unit_length in Hu.
  assert (G : forall (p : Quat R) (u : Vec3.t R),
    rotate (inverse p) (IsObject (rotate p (IsObject u)))
    = Vec3.mk (norm2 p * norm2 p * Vec3.x u) (norm2 p * norm2 p * Vec3.y u)
              (norm2 p * norm2 p * Vec3.z u)
    /\ rotate p (IsObject (rotate (inverse p) (IsObject u)))
       = Vec3.mk (norm2 p * norm2 p * Vec3.x u) (norm2 p * norm2 p * Vec3.y u)
                 (norm2 p * norm2 p * Vec3.z u)).
  { intros [pw px py pz] [ux uy uz]. unfold norm2. split; quat_R; f_equal; ring. }
  destruct (G q v) as [G1 G2]. rewrite G1, G2, Hu.
  destruct v; simpl. split; f_equal; ring.
Qed.

Lemma rotate_inverse_round_trip_witness :
  let q := mkQuat (3 / 5) 0 (4 / 5) 0 in
  rotate (inverse q) (IsObject (rotate q (IsObject (Vec3.mk 1 2 3)))) = Vec3.mk 1 2 3.
Proof.
  apply (rotate_inverse_round_trip (mkQuat (3 / 5) 0 (4 / 5) 0) (Vec3.mk 1 2 3)).
  unfold unit_length, norm2; simpl; lra.
Defined.

(** X16: in exact arithmetic a quaternion and its negation are the same
    rotation: they rotate every vector alike and have the same matrix. *)
Theorem rotate_antipodal (q : Quat R) (v : Vec3.t R) :
  rotate (mkQuat (- w q) (- x q) (- y q) (- z q)) (IsObject v) = rotate q (IsObject v)
  /\ matrix (mkQuat (- w q) (- x q) (- y q) (- z q)) = matrix q.
Proof.
  destruct q, v. split; quat_R.
  - f_equal; ring.
  - f_equal.
    repeat match goal with
      | |- _ :: _ = _ :: _ => apply f_equal2; [ring |]
      end.
    reflexivity.
Qed.

(** X17: in exact arithmetic [rotate] is linear in the vector, for every
    quaternion. *)
Theorem rotate_linear (q : Quat R) (u v : Vec3.t R) (a b : R) :
  rotate q (IsObject (Vec3.mk (a * Vec3.x u + b * Vec3.x v)
                              (a * Vec3.y u + b * Vec3.y v)
                              (a * Vec3.z u + b * Vec3.z v)))
  = Vec3.mk (a * Vec3.x (rotate q (IsObject u)) + b * Vec3.x (rotate q (IsObject v)))
            (a * Vec3.y (rotate q (IsObject u)) + b * Vec3.y (rotate q (IsObject v)))
            (a * Vec3.z (rotate q (IsObject u)) + b * Vec3.z (rotate q (IsObject v))).
Proof. destruct q, u, v. quat_R. f_equal; ring. Qed.

(** ** [matrix] *)

Lemma matrix_apply_rotate (q : Quat R) (v : Vec3.t R) :
  unit_length q -> apply (entry_col_major (matrix q)) v = rotate q (IsObject v).
Proof.
  intros Hu. rewrite <- (rotation_matrix_rotates q v Hu).
  unfold apply. f_equal;
    rewrite !matrix_col_major_entries by (repeat constructor); reflexivity.
Qed.

(** X18: in exact arithmetic the matrix of [q.conjugate()] is the transpose
    of the matrix of [q], for every quaternion. *)
Theorem matrix_conjugate_transpose (q : Quat R) (i j : nat) :
  (i < 3)%nat -> (j < 3)%nat ->
  entry_col_major (matrix (conjugate q)) i j = entry_col_major (matrix q) j i.
Proof.
  intros Hi Hj. destruct q.
  destruct i as [|[|[|i]]]; [| | | lia];
    (destruct j as [|[|[|j]]]; [| | | lia]);
    unfold entry_col_major; quat_R; simpl; ring.
Qed.

Lemma matrix_conjugate_transpose_witness :
  entry_col_major (matrix (conjugate (mkQuat 1 2 3 4))) 0 1
  = entry_col_major (matrix (mkQuat 1 2 3 4)) 1 0.
Proof. apply (matrix_conjugate_transpose (mkQuat 1 2 3 4)); lia. Defined.

(** X19: in exact arithmetic the matrix of a unit quaternion is orthogonal:
    its product with its transpose is the identity matrix. *)
Theorem matrix_orthogonal (q : Quat R) (i j : nat) :
  unit_length q -> (i < 3)%nat -> (j < 3)%nat ->
  entries_product (entry_col_major (matrix q))
                  (fun k l => entry_col_major (matrix q) l k) i j
  = kronecker i j.
Proof.
  intros Hu Hi Hj. destruct q as [qw qx qy qz].
  unfold unit_length, norm2 in Hu; simpl in Hu.
  set (N := qw * qw + qx * qx + qy * qy + qz * qz) in *.
  destruct i as [|[|[|i]]]; [| | | lia];
    (destruct j as [|[|[|j]]]; [| | | lia]);
    unfold entries_product, entry_col_major, kronecker; quat_R; simpl;
    replace (1 - 2 * (qy * qy) - 2 * (qz * qz))
      with (qw * qw + qx * qx - qy * qy - qz * qz) by (unfold N in Hu; lra);
    replace (1 - 2 * (qx * qx) - 2 * (qz * qz))
      with (qw * qw - qx * qx + qy * qy - qz * qz) by (unfold N in Hu; lra);
    replace (1 - 2 * (qx * qx) - 2 * (qy * qy))
      with (qw * qw - qx * qx - qy * qy + qz * qz) by (unfold N in Hu; lra);
    try ring;
    (transitivity (N * N); [unfold N; ring | rewrite Hu; ring]).
Qed.

Lemma matrix_orthogonal_witness :
  let q := mkQuat (3 / 5) 0 (4 / 5) 0 in
  entries_product (entry_col_major (matrix q))
                  (fun k l => entry_col_major (matrix q) l k) 0 0 = 1
  /\ entries_product (entry_col_major (matrix q))
                     (fun k l => entry_col_major (matrix q) l k) 0 2 = 0.
Proof.
  assert (Hu : unit_length (mkQuat (3 / 5) 0 (4 / 5) 0))
    by (unfold unit_length, norm2; simpl; lra).
  split.
  - apply (matrix_orthogonal (mkQuat (3 / 5) 0 (4 / 5) 0) 0 0 Hu); lia.
  - apply (matrix_orthogonal (mkQuat (3 / 5) 0 (4 / 5) 0) 0 2 Hu); lia.
Defined.

(** X20: in exact arithmetic and for unit quaternions [a] and [b], the
    matrix of [a.mult(b)] acts on a vector as the matrix of [b] followed by
    the matrix of [a]. *)
Theorem matrix_mult_composes (a b : Quat R) (v : Vec3.t R) :
  unit_length a -> unit_length b ->
  apply (entry_col_major (matrix (mult a (IsObject b)))) v
  = apply (entry_col_major (matrix a)) (apply (entry_col_major (matrix b)) v).
Proof.
  intros Ha Hb.
  assert (Hab : unit_length (mult a (IsObject b))).
  { unfold unit_length in *.
    replace (norm2 (mult a (IsObject b))) with (norm2 a * norm2 b)
      by (destruct a, b; unfold norm2; quat_R; ring).
    rewrite Ha, Hb. ring. }
  rewrite (matrix_apply_rotate _ v Hab), (matrix_apply_rotate b v Hb),
    (matrix_apply_rotate a _ Ha).
  apply rotate_compose.
Qed.

Lemma matrix_mult_composes_witness :
  let a := mkQuat (3 / 5) 0 (4 / 5) 0 in
  let b := mkQuat 0 1 0 0 in
  apply (entry_col_major (matrix (mult a (IsObject b)))) (Vec3.mk 1 2 3)
  = apply (entry_col_major (matrix a))
          (apply (entry_col_major (matrix b)) (Vec3.mk 1 2 3)).
Proof.
  apply (matrix_mult_composes (mkQuat (3 / 5) 0 (4 / 5) 0) (mkQuat 0 1 0 0));
    unfold unit_length, norm2; simpl; lra.
Defined.

(** ** [rotationRadians] and [random] *)

Lemma Rtrunc_opp (a : R) : Rtrunc (- a) = (- Rtrunc a)%Z.
Proof.
  unfold Rtrunc.
  destruct (Rle_dec 0 (- a)) as [Hn | Hn], (Rle_dec 0 a) as [Hp | Hp].
  - assert (a = 0) by lra. subst a. rewrite Ropp_0.
    change 0 with (IZR 0). rewrite ZfloorZ. reflexivity.
  - unfold Zceil. lia.
  - unfold Zceil. rewrite Ropp_involutive. reflexivity.
  - lra.
Qed.

Lemma Rmod_opp_divisor (a b : R) : b <> 0 -> Rmod a (- b) = Rmod a b.
Proof.
  intros Hb. unfold Rmod.
  replace (a / - b) with (- (a / b)) by (field; exact Hb).
  rewrite Rtrunc_opp, opp_IZR. ring.
Qed.

Lemma Rmod_opp (a b : R) : b <> 0 -> Rmod (- a) b = - Rmod a b.
Proof.
  intros Hb. unfold Rmod.
  replace (- a / b) with (- (a / b)) by (field; exact Hb).
  rewrite Rtrunc_opp, opp_IZR. ring.
Qed.

Lemma Rmod_small (a b : R) : 0 <= a < b -> Rmod a b = a.
Proof.
  intros [Ha Hb]. unfold Rmod, Rtrunc.
  assert (Hq : 0 <= a / b < 1).
  { split.
    - apply Rmult_le_pos; [lra |]. left. apply Rinv_0_lt_compat. lra.
    - apply (Rmult_lt_reg_r b); [lra |]. unfold Rdiv.
      rewrite Rmult_assoc, Rinv_l by lra. lra. }
  destruct (Rle_dec 0 (a / b)) as [_ | N]; [| lra].
  rewrite (Zfloor_eq 0 (a / b)) by (simpl; lra). simpl. ring.
Qed.

Lemma rotationRadians_wrap (angle : R) (axis : Vec3.t R) :
  rotationRadians angle axis
  = normalize (axis_angle (Rmod angle (2 * PI) / 2) (Vec3.normalize axis)).
Proof.
  pose proof PI_RGT_0 as Hpi.
  unfold rotationRadians, axis_angle; js_R.
  destruct (Rltb 0 angle); [reflexivity |].
  replace (- (2) * PI) with (- (2 * PI)) by ring.
  rewrite Rmod_opp_divisor by lra. reflexivity.
Qed.

Lemma axis_angle_unit (half : R) (n : Vec3.t R) :
  magnitude n = 1 -> unit_length (axis_angle half n).
Proof.
  unfold magnitude. intros Hn.
  assert (Hn2 : Vec3.x n * Vec3.x n + Vec3.y n * Vec3.y n + Vec3.z n * Vec3.z n = 1).
  { set (s := Vec3.x n * Vec3.x n + Vec3.y n * Vec3.y n + Vec3.z n * Vec3.z n) in *.
    assert (0 <= s) by (unfold s; nra).
    rewrite <- (sqrt_sqrt s) by assumption. rewrite Hn. ring. }
  unfold unit_length, norm2, axis_angle; simpl.
  pose proof (sin2_cos2 half) as Hsc. unfold Rsqr in Hsc.
  transitivity (cos half * cos half
     + (Vec3.x n * Vec3.x n + Vec3.y n * Vec3.y n + Vec3.z n * Vec3.z n)
       * (sin half * sin half)); [ring |].
  rewrite Hn2. lra.
Qed.

Lemma rotationRadians_axis_angle (angle : R) (axis : Vec3.t R) :
  axis <> Vec3.mk 0 0 0 ->
  rotationRadians angle axis
  = axis_angle (Rmod angle (2 * PI) / 2) (Vec3.normalize axis).
Proof.
  intros Haxis. destruct (Vec3_normalize_nonzero axis Haxis) as (_ & _ & Hn).
  rewrite rotationRadians_wrap.
  apply normalize_of_unit, axis_angle_unit, Hn.
Qed.

(** X21: in exact arithmetic the test of the sign of the angle changes
    nothing, [angle % (-2pi)] being [angle % (2pi)]: for every angle and
    axis the result is the normalization of the axis-angle quaternion of
    half of [angle % (2pi)].  For a non-zero axis that quaternion already
    has unit length, the final [normalize] leaves it as it is, and the
    result has unit length. *)
Theorem rotationRadians_sign_test_redundant (angle : R) (axis : Vec3.t R) :
  Rmod angle (- (2) * PI) = Rmod angle (2 * PI)
  /\ rotationRadians angle axis
     = normalize (axis_angle (Rmod angle (2 * PI) / 2) (Vec3.normalize axis))
  /\ (axis <> Vec3.mk 0 0 0 ->
      rotationRadians angle axis
      = axis_angle (Rmod angle (2 * PI) / 2) (Vec3.normalize axis)
      /\ unit_length (rotationRadians angle axis)).
Proof.
  pose proof PI_RGT_0 as Hpi.
  split.
  { replace (- (2) * PI) with (- (2 * PI)) by ring.
    apply Rmod_opp_divisor. lra. }
  split; [apply rotationRadians_wrap |].
  intros Haxis. destruct (Vec3_normalize_nonzero axis Haxis) as (_ & _ & Hn).
  rewrite (rotationRadians_axis_angle angle axis Haxis).
  split; [reflexivity | apply axis_angle_unit, Hn].
Qed.

Lemma rotationRadians_sign_test_redundant_witness :
  unit_length (rotationRadians (- 7) (Vec3.mk 0 3 4)).
Proof.
  apply (rotationRadians_sign_test_redundant (- 7) (Vec3.mk 0 3 4)).
  intros E. assert (E' := f_equal Vec3.z E). simpl in E'. lra.
Defined.

Lemma rotate_axis_angle_fixes (half k : R) (n : Vec3.t R) :
  magnitude n = 1 ->
  rotate (axis_angle half n)
         (IsObject (Vec3.mk (k * Vec3.x n) (k * Vec3.y n) (k * Vec3.z n)))
  = Vec3.mk (k * Vec3.x n) (k * Vec3.y n) (k * Vec3.z n).
Proof.
  intros Hn. pose proof (axis_angle_unit half n Hn) as Hu.
  unfold unit_length, norm2, axis_angle in Hu; simpl in Hu.
  destruct n as [nx ny nz]; simpl in *.
  unfold axis_angle; simpl. quat_R.
  set (c := cos half) in *. set (s := sin half) in *.
  f_equal.
  - transitivity
      (k * nx * (c * c + nx * s * (nx * s) + ny * s * (ny * s) + nz * s * (nz * s)));
      [ring | rewrite Hu; ring].
  - transitivity
      (k * ny * (c * c + nx * s * (nx * s) + ny * s * (ny * s) + nz * s * (nz * s)));
      [ring | rewrite Hu; ring].
  - transitivity
      (k * nz * (c * c + nx * s * (nx * s) + ny * s * (ny * s) + nz * s * (nz * s)));
      [ring | rewrite Hu; ring].
Qed.

(** X22: in exact arithmetic, for every angle and every non-zero axis, the
    rotation built by [rotationRadians] leaves its own axis where it is. *)
Theorem rotationRadians_fixes_axis (angle : R) (axis : Vec3.t R) :
  axis <> Vec3.mk 0 0 0 ->
  rotate (rotationRadians angle axis) (IsObject axis) = axis.
Proof.
  intros Haxis.
  destruct (Vec3_normalize_nonzero axis Haxis) as (Hm & Hn & Hu).
  rewrite (rotationRadians_axis_angle angle axis Haxis).
  assert (Hax : axis = Vec3.mk (magnitude axis * Vec3.x (Vec3.normalize axis))
                               (magnitude axis * Vec3.y (Vec3.normalize axis))
                               (magnitude axis * Vec3.z (Vec3.normalize axis))).
  { rewrite Hn. destruct axis; simpl. f_equal; field; exact Hm. }
  rewrite Hax at 2 3. apply rotate_axis_angle_fixes. exact Hu.
Qed.

Lemma rotationRadians_fixes_axis_witness :
  rotate (rotationRadians 1 (Vec3.mk 0 3 4)) (IsObject (Vec3.mk 0 3 4))
  = Vec3.mk 0 3 4.
Proof.
  apply (rotationRadians_fixes_axis 1 (Vec3.mk 0 3 4)).
  intros E. assert (E' := f_equal Vec3.z E). simpl in E'. lra.
Defined.

Lemma normalize_conjugate (q : Quat R) :
  normalize (conjugate q) = conjugate (normalize q).
Proof.
  assert (Hn : norm2 (conjugate q) = norm2 q)
    by (destruct q; unfold norm2; quat_R; ring).
  destruct (Req_dec_T (norm2 q) 0) as [Hz | Hnz].
  - rewrite (normalize_zero q Hz), (normalize_zero (conjugate q)) by lra.
    quat_R. f_equal; ring.
  - rewrite (normalize_nonzero q Hnz), (normalize_nonzero (conjugate q)) by lra.
    rewrite Hn.
    assert (Hs0 : sqrt (norm2 q) <> 0).
    { intros Hs; apply Hnz; apply sqrt_eq_0 in Hs;
        [exact Hs | apply norm2_nonneg]. }
    destruct q; quat_R. f_equal; try reflexivity; field; exact Hs0.
Qed.

(** X23: in exact arithmetic, for every angle and axis, the opposite angle
    about the same axis gives the conjugate quaternion, which is the
    inverse. *)
Theorem rotationRadians_opposite_angle (angle : R) (axis : Vec3.t R) :
  rotationRadians (- angle) axis = conjugate (rotationRadians angle axis)
  /\ rotationRadians (- angle) axis = inverse (rotationRadians angle axis).
Proof.
  pose proof PI_RGT_0 as Hpi.
  assert (E : rotationRadians (- angle) axis
              = conjugate (rotationRadians angle axis)).
  { rewrite !rotationRadians_wrap, <- normalize_conjugate.
    rewrite Rmod_opp by lra. f_equal.
    unfold axis_angle; quat_R.
    replace (- Rmod angle (2 * PI) / 2) with (- (Rmod angle (2 * PI) / 2)) by field.
    rewrite cos_neg, sin_neg. f_equal; ring. }
  split; exact E.
Qed.

Lemma half_turns (k : Z) :
  exists e : R, (e = 1 \/ e = -1) /\
    forall h : R,
      cos (h - IZR k * PI) = e * cos h /\ sin (h - IZR k * PI) = e * sin h.
Proof.
  induction k using Z.peano_ind.
  - exists 1. split; [left; reflexivity |]. intros h.
    replace (h - 0 * PI) with h by ring. split; ring.
  - destruct IHk as (e & He & Hk). exists (- e).
    split; [destruct He; [right | left]; lra |].
    intros h. rewrite succ_IZR.
    destruct (Hk (h - PI)) as [Hc Hs].
    replace (h - (IZR k + 1) * PI) with (h - PI - IZR k * PI) by ring.
    rewrite Hc, Hs.
    assert (Nc : cos (h - PI) = - cos h).
    { pose proof (neg_cos (h - PI)) as N.
      replace (h - PI + PI) with h in N by ring. lra. }
    assert (Ns : sin (h - PI) = - sin h).
    { pose proof (neg_sin (h - PI)) as N.
      replace (h - PI + PI) with h in N by ring. lra. }
    rewrite Nc, Ns. split; ring.
  - destruct IHk as (e & He & Hk). exists (- e).
    split; [destruct He; [right | left]; lra |].
    intros h.
    replace (IZR (Z.pred k)) with (IZR k - 1)
      by (unfold Z.pred; rewrite plus_IZR; simpl; ring).
    destruct (Hk (h + PI)) as [Hc Hs].
    replace (h - (IZR k - 1) * PI) with (h + PI - IZR k * PI) by ring.
    rewrite Hc, Hs, neg_cos, neg_sin. split; ring.
Qed.

Lemma rotate_sign (e : R) (q : Quat R) (v : Vec3.t R) :
  e = 1 \/ e = -1 ->
  rotate (mkQuat (e * w q) (e * x q) (e * y q) (e * z q)) (IsObject v)
  = rotate q (IsObject v).
Proof.
  intros He. assert (He2 : e * e = 1) by (destruct He; subst; ring).
  destruct q as [qw qx qy qz], v as [vx vy vz]. quat_R.
  f_equal.
  all: match goal with
       | |- ?l = ?r => transitivity (e * e * r); [ring | rewrite He2; ring]
       end.
Qed.

(** X24: in exact arithmetic, wrapping the angle does not change the
    rotation: for every angle and every non-zero axis, [rotationRadians]
    rotates every vector as the quaternion
    [(cos(angle/2), n sin(angle/2))] of the unwrapped angle does, [n] being
    the normalized axis. *)
Theorem rotationRadians_same_rotation (angle : R) (axis : Vec3.t R) (v : Vec3.t R) :
  axis <> Vec3.mk 0 0 0 ->
  rotate (rotationRadians angle axis) (IsObject v)
  = rotate (axis_angle (angle / 2) (Vec3.normalize axis)) (IsObject v).
Proof.
  intros Haxis. rewrite (rotationRadians_axis_angle angle axis Haxis).
  destruct (half_turns (Rtrunc (angle / (2 * PI)))) as (e & He & Hk).
  destruct (Hk (angle / 2)) as [Hc Hs].
  replace (Rmod angle (2 * PI) / 2)
    with (angle / 2 - IZR (Rtrunc (angle / (2 * PI))) * PI)
    by (unfold Rmod; field).
  rewrite <- (rotate_sign e (axis_angle (angle / 2) (Vec3.normalize axis)) v He).
  unfold axis_angle; simpl. rewrite Hc, Hs. f_equal. f_equal; ring.
Qed.

Lemma rotationRadians_same_rotation_witness :
  rotate (rotationRadians 10 (Vec3.mk 0 0 2)) (IsObject (Vec3.mk 1 0 0))
  = rotate (axis_angle (10 / 2) (Vec3.normalize (Vec3.mk 0 0 2)))
           (IsObject (Vec3.mk 1 0 0)).
Proof.
  apply (rotationRadians_same_rotation 10 (Vec3.mk 0 0 2)).
  intros E. assert (E' := f_equal Vec3.z E). simpl in E'. lra.
Defined.

Lemma Vec3_normalize_unit (v : Vec3.t R) :
  magnitude v = 1 -> Vec3.normalize v = v.
Proof.
  intros Hm. unfold Vec3.normalize; js_R.
  change (sqrt (Vec3.x v * Vec3.x v + Vec3.y v * Vec3.y v + Vec3.z v * Vec3.z v))
    with (magnitude v).
  rewrite Hm, Reqb_false by lra. destruct v; simpl. f_equal; field.
Qed.

(** X25: in exact arithmetic, for a non-zero drawn vector [v] and a drawn
    number [r] in [0, 1), [random] returns the unit quaternion
    [(cos(r/2), n sin(r/2))] about the normalized [v]: its rotation angle is
    [r], less than one radian, so that its [w] always exceeds [cos(1/2)]. *)
Theorem random_small_rotation (v : Vec3.t R) (r : R) :
  v <> Vec3.mk 0 0 0 -> 0 <= r < 1 ->
  random v r = axis_angle (r / 2) (Vec3.normalize v)
  /\ unit_length (random v r)
  /\ cos (1 / 2) < w (random v r) <= 1.
Proof.
  intros Hv [Hr0 Hr1].
  destruct (Vec3_normalize_nonzero v Hv) as (_ & _ & Hn).
  assert (Hn0 : Vec3.normalize v <> Vec3.mk 0 0 0).
  { intros E. rewrite E in Hn. unfold magnitude in Hn; simpl in Hn.
    replace (0 * 0 + 0 * 0 + 0 * 0) with 0 in Hn by ring.
    rewrite sqrt_0 in Hn. lra. }
  pose proof PI2_1 as Hpi.
  unfold random.
  pose proof (rotationRadians_axis_angle r _ Hn0) as Hq.
  rewrite (Vec3_normalize_unit _ Hn), Rmod_small in Hq by lra.
  rewrite Hq.
  split; [reflexivity |]. split; [apply axis_angle_unit, Hn |].
  unfold axis_angle; simpl. split.
  - apply cos_decreasing_1; lra.
  - apply COS_bound.
Qed.

Lemma random_small_rotation_witness :
  cos (1 / 2) < w (random (Vec3.mk 0 3 4) (1 / 4)) <= 1.
Proof.
  apply (random_small_rotation (Vec3.mk 0 3 4) (1 / 4)).
  - intros E. assert (E' := f_equal Vec3.z E). simpl in E'. lra.
  - lra.
Defined.

(** ** [slerp] *)

Lemma dot_sym (a b : Quat R) : dot a b = dot b a.
Proof. unfold dot; ring. Qed.

Lemma norm2_combination (a b : Quat R) (p q : R) :
  norm2 (mkQuat (w a * p + w b * q) (x a * p + x b * q)
                (y a * p + y b * q) (z a * p + z b * q))
  = p * p * norm2 a + q * q * norm2 b + 2 * p * q * dot a b.
Proof. unfold norm2, dot; simpl; ring. Qed.





(** X28: in exact arithmetic, in the weighted branch
    ([sinHalfTheta >= 0.001]) the interpolation of two unit quaternions has
    unit length for every [t], inside [0, 1] or not, although [slerp] does
    not normalize its result. *)
Theorem slerp_weighted_unit (a b : Quat R) (t : R) :
  unit_length a -> unit_length b ->
  1 / 1000 <= sqrt (1 - dot a b * dot a b) ->
  unit_length (slerp a b t).
Proof.
  intros Ha Hb Hs. destruct (slerp_weighted a b t Hs) as [Hc ->].
  unfold unit_length in *. rewrite norm2_combination, Ha, Hb.
  apply Rabs_def2 in Hc.
  set (c := dot a b) in *. set (h := acos c).
  assert (Hcos : cos h = c) by (apply cos_acos; lra).
  assert (Hsin : sin h = sqrt (1 - c * c))
    by (unfold h; rewrite sin_acos by lra; reflexivity).
  rewrite <- Hsin in *.
  assert (Hne : sin h <> 0) by lra.
  replace ((1 - t) * h) with (h - t * h) by ring.
  rewrite sin_minus. rewrite <- Hcos.
  pose proof (sin2_cos2 h) as P1. pose proof (sin2_cos2 (t * h)) as P2.
  unfold Rsqr in P1, P2.
  set (S := sin h) in *. set (C := cos h) in *.
  set (s := sin (t * h)) in *. set (k := cos (t * h)) in *.
  field_simplify_eq; [| exact Hne].
  nra.
Qed.

Lemma slerp_weighted_unit_witness :
  unit_length (slerp (mkQuat 1 0 0 0) (mkQuat 0 1 0 0) (1 / 3)).
Proof.
  apply (slerp_weighted_unit (mkQuat 1 0 0 0) (mkQuat 0 1 0 0) (1 / 3)).
  - unfold unit_length, norm2; simpl; lra.
  - unfold unit_length, norm2; simpl; lra.
  - unfold dot; simpl.
    replace (1 - (1 * 0 + 0 * 1 + 0 * 0 + 0 * 0) * (1 * 0 + 0 * 1 + 0 * 0 + 0 * 0))
      with 1 by ring.
    rewrite sqrt_1. lra.
Defined.

(** X29: in exact arithmetic, in the averaging branch ([|from.to| < 1] and
    [sinHalfTheta < 0.001]) the result for two unit quaternions has squared
    magnitude [(1 + from.to) / 2], strictly less than 1: it never has unit
    length. *)
Theorem slerp_average_not_unit (a b : Quat R) (t : R) :
  unit_length a -> unit_length b ->
  Rabs (dot a b) < 1 -> sqrt (1 - dot a b * dot a b) < 1 / 1000 ->
  norm2 (slerp a b t) = (1 + dot a b) / 2 /\ norm2 (slerp a b t) < 1.
Proof.
  intros Ha Hb Hc Hs. rewrite (slerp_average a b t Hc Hs), norm2_combination.
  unfold unit_length in Ha, Hb. rewrite Ha, Hb.
  apply Rabs_def2 in Hc. split; [field | lra].
Qed.

Lemma slerp_average_not_unit_witness :
  let a := mkQuat 1 0 0 0 in
  let b := mkQuat (- 99999999 / 100000001) (20000 / 100000001) 0 0 in
  norm2 (slerp a b (1 / 2)) < 1.
Proof.
  cbv zeta.
  set (a := mkQuat 1 0 0 0).
  set (b := mkQuat (- 99999999 / 100000001) (20000 / 100000001) 0 0).
  assert (Hdot : dot a b = - 99999999 / 100000001)
    by (unfold dot, a, b; simpl; field).
  apply (slerp_average_not_unit a b (1 / 2)).
  - unfold unit_length, norm2, a; simpl; lra.
  - unfold unit_length, norm2, b; simpl; field.
  - rewrite Hdot. apply Rabs_def1; lra.
  - rewrite Hdot.
    replace (sqrt (1 - - 99999999 / 100000001 * (- 99999999 / 100000001)))
      with (20000 / 100000001) by (symmetry; apply sqrt_lem_1; [lra | lra | field]).
    lra.
Defined.

(** ** [normalize] *)

(** X30: in exact arithmetic [normalize] only rescales: a positive multiple
    of [q] has the same normalization as [q], and a [q] of non-zero
    magnitude is its magnitude times its normalization. *)
Theorem normalize_rescales (q : Quat R) (k : R) :
  0 < k ->
  normalize (mkQuat (k * w q) (k * x q) (k * y q) (k * z q)) = normalize q
  /\ (norm2 q <> 0 ->
      q = mkQuat (sqrt (norm2 q) * w (normalize q)) (sqrt (norm2 q) * x (normalize q))
                 (sqrt (norm2 q) * y (normalize q)) (sqrt (norm2 q) * z (normalize q))).
Proof.
  intros Hk.
  set (q' := mkQuat (k * w q) (k * x q) (k * y q) (k * z q)).
  assert (Hn : norm2 q' = (k * k) * norm2 q) by (unfold norm2, q'; simpl; ring).
  assert (Hs0 : norm2 q <> 0 -> sqrt (norm2 q) <> 0).
  { intros Hnz Hs; apply Hnz; apply sqrt_eq_0 in Hs;
      [exact Hs | apply norm2_nonneg]. }
  split.
  - destruct (Req_dec_T (norm2 q) 0) as [Hz | Hnz].
    + rewrite (normalize_zero q Hz), (normalize_zero q'); [reflexivity |].
      rewrite Hn, Hz. ring.
    + assert (Hnz' : norm2 q' <> 0).
      { rewrite Hn. apply Rmult_integral_contrapositive_currified;
          [nra | exact Hnz]. }
      rewrite (normalize_nonzero q Hnz), (normalize_nonzero q' Hnz').
      rewrite Hn, sqrt_mult_alt, sqrt_square by nra.
      unfold q'; simpl. f_equal; field; split; auto; lra.
  - intros Hnz. rewrite (normalize_nonzero q Hnz). destruct q; simpl.
    f_equal; field; apply Hs0; exact Hnz.
Qed.

Lemma normalize_rescales_witness :
  normalize (mkQuat (2 * 1) (2 * 2) (2 * 3) (2 * 4)) = normalize (mkQuat 1 2 3 4).
Proof.
  apply (normalize_rescales (mkQuat 1 2 3 4) 2). lra.
Defined.
